(** * bull-board-docker: queue discovery and bulk reset (src/index.js)

  A shallow embedding of the parts of [src/index.js] that discover the
  queues of a shared Redis store, build one board adapter per queue, and
  clean all queues on request, together with the properties stated for
  them.

  JavaScript strings are sequences of UTF-16 code units; a thrown value
  is any value, and reading [message] of [null] or [undefined] throws;
  every call into Redis, bull or bullmq is answered by an explicit
  environment. *)

From Stdlib Require Import ZArith NArith Ascii String List Lia.
From stdpp Require Import base decidable option list sorting.

Local Open Scope list_scope.
Set Warnings "-register-all".
Set Warnings "-automation".


(** ** JavaScript strings *)

Module JsString.

(** A string is its list of UTF-16 code units. *)
Definition jsstring := list N.

(** Source literals are written as Rocq strings and converted. *)
Definition js (s : string) : jsstring :=
  map N_of_ascii (list_ascii_of_string s).

Definition colon : N := 58.

(** [LineTerminator] of ECMAScript: LF, CR, LS, PS. *)
Definition is_line_terminator (c : N) : bool :=
  (c =? 10)%N || (c =? 13)%N || (c =? 8232)%N || (c =? 8233)%N.

(** The comparison of [x < y] on strings: lexicographic on code units.
    [Array.prototype.sort] without a comparator orders strings by it. *)
Fixpoint str_compare (s t : jsstring) : comparison :=
  match s, t with
  | [], [] => Eq
  | [], _ :: _ => Lt
  | _ :: _, [] => Gt
  | a :: s', b :: t' =>
      match (a ?= b)%N with
      | Eq => str_compare s' t'
      | c => c
      end
  end.

Definition str_le (s t : jsstring) : Prop := str_compare s t <> Gt.
Definition str_lt (s t : jsstring) : Prop := str_compare s t = Lt.

#[global] Instance str_le_dec : RelDecision str_le.
Proof. intros s t. unfold str_le. apply _. Defined.

#[global] Instance str_lt_dec : RelDecision str_lt.
Proof. intros s t. unfold str_lt. apply _. Defined.

(** [s.startsWith(p)], used to describe what a key pattern selects. *)
Fixpoint starts_with (p s : jsstring) : bool :=
  match p, s with
  | [], _ => true
  | _ :: _, [] => false
  | a :: p', b :: s' => (a =? b)%N && starts_with p' s'
  end.

End JsString.
Export JsString.

(** ** Regular expressions

  The fragment of ECMAScript patterns that [/^.+?:(.+?):.+?$/] is written
  in, with the backtracking semantics of the language: a matcher takes a
  continuation and a lazy quantifier tries the continuation before it
  consumes more input.  No flag is set, so [.] excludes line terminators
  and [^], [$] are the ends of the input. *)

Module RegExp.

Inductive regex : Type :=
| Assert_start                 (* ^ *)
| Assert_end                   (* $ *)
| Lit (c : N)                  (* a pattern character *)
| Dot_plus_lazy                (* .+? *)
| Capture (r : regex)          (* ( r ), the only group: $1 *)
| Seq (r1 r2 : regex).

(** index of the match, index after it, and capture 1 *)
Definition match_result : Type := nat * nat * option jsstring.

Definition dot (c : N) : bool := negb (is_line_terminator c).

(** [atom+?]: one [atom], then the rest of the pattern if it matches,
    otherwise one more [atom]. *)
Fixpoint lazy_plus {R} (atom : N -> bool) (i : nat) (rest : jsstring)
    (k : nat -> jsstring -> option R) : option R :=
  match rest with
  | [] => None
  | c :: rest' =>
      if atom c then
        match k (S i) rest' with
        | Some r => Some r
        | None => lazy_plus atom (S i) rest' k
        end
      else None
  end.

(** [matcher r i rest cap k]: match [r] at index [i], where [rest] is the
    input from [i] on and [cap] the capture so far, then continue with
    [k]. *)
Fixpoint matcher {R} (r : regex) (i : nat) (rest : jsstring)
    (cap : option jsstring)
    (k : nat -> jsstring -> option jsstring -> option R) : option R :=
  match r with
  | Assert_start => if Nat.eqb i 0 then k i rest cap else None
  | Assert_end => match rest with [] => k i rest cap | _ :: _ => None end
  | Lit c =>
      match rest with
      | x :: rest' => if (x =? c)%N then k (S i) rest' cap else None
      | [] => None
      end
  | Dot_plus_lazy => lazy_plus dot i rest (fun j rest' => k j rest' cap)
  | Capture r1 =>
      matcher r1 i rest cap
        (fun j rest' _ => k j rest' (Some (take (j - i) rest)))
  | Seq r1 r2 =>
      matcher r1 i rest cap (fun j rest' cap' => matcher r2 j rest' cap' k)
  end.

(** [RegExp.prototype.exec] from index [i]: the first index at which the
    pattern matches. *)
Fixpoint exec_from (r : regex) (i : nat) (rest : jsstring)
    : option match_result :=
  match matcher r i rest None (fun j _ cap => Some (i, j, cap)) with
  | Some m => Some m
  | None =>
      match rest with
      | [] => None
      | _ :: rest' => exec_from r (S i) rest'
      end
  end.

Definition exec (r : regex) (s : jsstring) : option match_result :=
  exec_from r 0 s.

(** [s.replace(r, '$1')] for a pattern without the [g] flag: the first
    match is replaced by capture 1 (empty when the group took no part);
    without a match the string is returned as it is. *)
Definition replace_with_group1 (r : regex) (s : jsstring) : jsstring :=
  match exec r s with
  | None => s
  | Some (i, j, cap) => take i s ++ default [] cap ++ drop j s
  end.

End RegExp.
Export RegExp.

(** ** JavaScript values, completions and Redis key patterns *)

Module Js.

(** The values that occur in option objects and response bodies.  An
    object is the list of its own properties in insertion order. *)
Inductive jsval : Type :=
| Undefined
| Null
| Bool (b : bool)
| Num (n : Z)
| Str (s : jsstring)
| Arr (elems : list jsval)
| Obj (props : list (string * jsval)).

(** [ToBoolean]. *)
Definition truthy (v : jsval) : bool :=
  match v with
  | Undefined | Null => false
  | Bool b => b
  | Num n => negb (n =? 0)%Z
  | Str s => match s with [] => false | _ :: _ => true end
  | Arr _ | Obj _ => true
  end.

(** [v === 'literal']. *)
Definition strict_eq_str (v : jsval) (lit : jsstring) : bool :=
  match v with
  | Str s => bool_decide (s = lit)
  | _ => false
  end.

Fixpoint lookup_prop (k : string) (props : list (string * jsval))
    : option jsval :=
  match props with
  | [] => None
  | (k', v) :: props' =>
      if String.eqb k k' then Some v else lookup_prop k props'
  end.

(** [o.k] on an object value; an absent property reads [undefined]. *)
Definition get (o : jsval) (k : string) : jsval :=
  match o with
  | Obj props => default Undefined (lookup_prop k props)
  | _ => Undefined
  end.

Definition has_own (o : jsval) (k : string) : bool :=
  match o with
  | Obj props => bool_decide (is_Some (lookup_prop k props))
  | _ => false
  end.

(** [o.k = v] for a property that [o] does not have yet. *)
Definition set_new_prop (o : jsval) (k : string) (v : jsval) : jsval :=
  match o with
  | Obj props => Obj (props ++ [(k, v)])
  | _ => o
  end.

(** A thrown value is any value: an [Error] object as a rule, but also a
    string, [null] or [undefined]. *)
Definition Error : Type := jsval.

Definition nullish (v : jsval) : bool :=
  match v with
  | Undefined | Null => true
  | _ => false
  end.

(** An [Error] object with the given message. *)
Definition new_Error (text : jsstring) : Error :=
  Obj [("message"%string, Str text)].

(** The [TypeError] of reading property [k] of [null] or [undefined],
    with the message that V8 gives it. *)
Definition TypeError_cannot_read (v : jsval) (k : string) : Error :=
  new_Error (js "Cannot read properties of "
             ++ (match v with Null => js "null" | _ => js "undefined" end)
             ++ js " (reading '" ++ js k ++ js "')").

(** The result of an expression (or of awaiting a promise): a value, or
    an exception (a rejection). *)
Inductive completion (A : Type) : Type :=
| Normal (a : A)
| Throw (e : Error).
Arguments Normal {A} a.
Arguments Throw {A} e.

Definition bind {A B} (c : completion A) (f : A -> completion B)
    : completion B :=
  match c with
  | Normal a => f a
  | Throw e => Throw e
  end.

(** [v.k] for any value [v]: [null] and [undefined] have no properties
    and the read throws; a primitive has none of its own either and the
    read gives [undefined]. *)
Definition get_property (v : jsval) (k : string) : completion jsval :=
  if nullish v then Throw (TypeError_cannot_read v k) else Normal (get v k).

(** [xs.map(f)] where [f] may throw: the first exception ends the map. *)
Fixpoint Array_map {A B} (f : A -> completion B) (xs : list A)
    : completion (list B) :=
  match xs with
  | [] => Normal []
  | x :: xs' =>
      bind (f x) (fun y =>
      bind (Array_map f xs') (fun ys => Normal (y :: ys)))
  end.

(** [new Set(values)] keeps the first occurrence of each value, in
    insertion order; [Array.from] lists them in that order. *)
Definition Set_add (s : list jsstring) (v : jsstring) : list jsstring :=
  if decide (v ∈ s) then s else s ++ [v].

Definition Set_new (values : list jsstring) : list jsstring :=
  foldl Set_add [] values.

Definition Array_from (s : list jsstring) : list jsstring := s.

(** [names.sort()]: ascending in the order of [<] on strings. *)
Definition Array_sort (l : list jsstring) : list jsstring :=
  merge_sort str_le l.

End Js.
Export Js.

#[global] Instance completion_ret : MRet completion := @Normal.
#[global] Instance completion_bind : MBind completion :=
  fun A B f c => bind c f.

(** The glob-style patterns of the Redis [KEYS] command: [*], [?],
    [[...]] with [^] and ranges, and [\] to quote a character. *)

Module Glob.

Inductive class_item : Type :=
| CChar (c : N)
| CRange (lo hi : N).

Inductive glob_tok : Type :=
| GStar
| GAny
| GClass (negated : bool) (items : list class_item)
| GChar (c : N).

Definition star : N := 42.
Definition qmark : N := 63.
Definition lbracket : N := 91.
Definition backslash : N := 92.
Definition rbracket : N := 93.
Definition caret : N := 94.
Definition dash : N := 45.

(** The tokens of a pattern; [cls] is the bracket expression being read. *)
Fixpoint tokens (cls : option (bool * list class_item)) (p : jsstring)
    : list glob_tok :=
  match cls with
  | Some (neg, acc) =>
      match p with
      | [] => [GClass neg acc]
      | c :: p' =>
          if (c =? backslash)%N then
            match p' with
            | q :: p'' => tokens (Some (neg, acc ++ [CChar q])) p''
            | [] => tokens (Some (neg, acc ++ [CChar c])) p'
            end
          else if (c =? rbracket)%N then GClass neg acc :: tokens None p'
          else
            match p' with
            | d :: hi :: p'' =>
                if (d =? dash)%N
                then tokens (Some (neg, acc ++ [CRange c hi])) p''
                else tokens (Some (neg, acc ++ [CChar c])) p'
            | _ => tokens (Some (neg, acc ++ [CChar c])) p'
            end
      end
  | None =>
      match p with
      | [] => []
      | c :: p' =>
          if (c =? star)%N then GStar :: tokens None p'
          else if (c =? qmark)%N then GAny :: tokens None p'
          else if (c =? lbracket)%N then
            match p' with
            | n :: p'' =>
                if (n =? caret)%N then tokens (Some (true, [])) p''
                else tokens (Some (false, [])) p'
            | [] => tokens (Some (false, [])) p'
            end
          else if (c =? backslash)%N then
            match p' with
            | q :: p'' => GChar q :: tokens None p''
            | [] => GChar c :: tokens None p'
            end
          else GChar c :: tokens None p'
      end
  end.

Definition class_item_matches (it : class_item) (c : N) : bool :=
  match it with
  | CChar x => (x =? c)%N
  | CRange lo hi =>
      ((N.min lo hi <=? c) && (c <=? N.max lo hi))%N
  end.

Definition tok_matches (t : glob_tok) (c : N) : bool :=
  match t with
  | GStar | GAny => true
  | GChar x => (x =? c)%N
  | GClass neg items =>
      xorb neg (existsb (fun it => class_item_matches it c) items)
  end.

Fixpoint toks_match (toks : list glob_tok) (s : jsstring) : bool :=
  match toks with
  | [] => match s with [] => true | _ :: _ => false end
  | GStar :: toks' =>
      (fix star_from (s : jsstring) : bool :=
         toks_match toks' s
         || match s with [] => false | _ :: s' => star_from s' end) s
  | t :: toks' =>
      match s with
      | [] => false
      | c :: s' => tok_matches t c && toks_match toks' s'
      end
  end.

(** A key matches when the pattern matches all of it. *)
Definition glob_match (pattern key : jsstring) : bool :=
  toks_match (tokens None pattern) key.

Definition is_glob_special (c : N) : bool :=
  (c =? star)%N || (c =? qmark)%N || (c =? lbracket)%N || (c =? backslash)%N.

End Glob.
Export Glob.

(** ** The application: src/index.js *)

Module App.

Local Open Scope string_scope.
Local Open Scope list_scope.

(** [require('./config')]: the settings the file reads.  The prefix and the
    two paths are strings; the Redis settings are passed on as they are. *)
Record Config : Type := {
  REDIS_PORT : jsval;
  REDIS_HOST : jsval;
  REDIS_DB : jsval;
  REDIS_PASSWORD : jsval;
  REDIS_USE_TLS : jsval;
  BULL_PREFIX : jsstring;
  BULL_VERSION : jsval;
  AUTH_ENABLED : bool;
  HOME_PAGE : jsstring;
  LOGIN_PAGE : jsstring
}.

(** [const redisConfig = { redis: { port, host, db, ...password, tls } }] *)
Definition redisConfig (config : Config) : jsval :=
  Obj [("redis",
        Obj ([("port", REDIS_PORT config);
              ("host", REDIS_HOST config);
              ("db", REDIS_DB config)]
             ++ (if truthy (REDIS_PASSWORD config)
                 then [("password", REDIS_PASSWORD config)] else [])
             ++ [("tls", Bool (strict_eq_str (REDIS_USE_TLS config)
                                 (js "true")))]))].

(** The two queue clients and the board adapters that wrap them. *)
Inductive client_library : Type := bull | bullmq.
Inductive adapter_class : Type := BullAdapter | BullMQAdapter.

(** A queue handle as the file uses it: [queue.name] and
    [queue.obliterate(opts)]; [opts] is what the client was built with. *)
Record Queue : Type := {
  library : client_library;
  name : completion jsval;
  opts : jsval;
  obliterate : jsval -> completion unit
}.

(** A board adapter as the file uses it: [queueAdapter.queue]. *)
Record QueueAdapter : Type := {
  class : adapter_class;
  queue : completion Queue
}.

(** What the world outside answers: the Redis connection, the keys of the
    database, the client constructors, and each queue's [obliterate]. *)
Record Env : Type := {
  connect : completion unit;
  redis_keys : list jsstring;
  keys_failure : option Error;
  constructor_failure : client_library -> jsstring -> option Error;
  obliterate_result : client_library -> jsstring -> jsval -> completion unit
}.

(** [await client.keys(pattern)] *)
Definition client_keys (env : Env) (pattern : jsstring)
    : completion (list jsstring) :=
  match keys_failure env with
  | Some err => Throw err
  | None => Normal (filter (fun key => glob_match pattern key = true)
                      (redis_keys env))
  end.

(** [new Queue(item, options)] of bull and of bullmq: the handle keeps its
    name and options; the constructor may reject them. *)
Definition new_Queue (env : Env) (lib : client_library) (item : jsstring)
    (options : jsval) : completion Queue :=
  match constructor_failure env lib item with
  | Some err => Throw err
  | None =>
      Normal {| library := lib;
                name := Normal (Str item);
                opts := options;
                obliterate := obliterate_result env lib item |}
  end.

Definition new_adapter (c : adapter_class) (q : Queue) : QueueAdapter :=
  {| class := c; queue := Normal q |}.

(** [/^.+?:(.+?):.+?$/] *)
Definition key_regex : regex :=
  Seq Assert_start
    (Seq Dot_plus_lazy
       (Seq (Lit colon)
          (Seq (Capture Dot_plus_lazy)
             (Seq (Lit colon)
                (Seq Dot_plus_lazy Assert_end))))).

(** [key => key.replace(/^.+?:(.+?):.+?$/, '$1')] *)
Definition queue_name_of_key (key : jsstring) : jsstring :=
  replace_with_group1 key_regex key.

(** [`${config.BULL_PREFIX}:*`] *)
Definition keys_pattern (config : Config) : jsstring :=
  BULL_PREFIX config ++ js ":*".

(** [Array.from(uniqKeys).sort()] of the names taken from [keys]. *)
Definition queue_names (keys : list jsstring) : list jsstring :=
  let uniqKeys := Set_new (map queue_name_of_key keys) in
  Array_sort (Array_from uniqKeys).

(** The options handed to [new bullmq.Queue]. *)
Definition bullmq_options (config : Config) : jsval :=
  let options := Obj [("connection", get (redisConfig config) "redis")] in
  if truthy (Str (BULL_PREFIX config))
  then set_new_prop options "prefix" (Str (BULL_PREFIX config))
  else options.

(** The callback of [.map]: one adapter for the queue named [item]. *)
Definition make_adapter (config : Config) (env : Env) (item : jsstring)
    : completion QueueAdapter :=
  if strict_eq_str (BULL_VERSION config) (js "BULLMQ") then
    q ← new_Queue env bullmq item (bullmq_options config);
    Normal (new_adapter BullMQAdapter q)
  else
    q ← new_Queue env bull item (redisConfig config);
    Normal (new_adapter BullAdapter q).

(** *** The process state and the discovery at startup *)

Inductive console_line : Type :=
| console_log (text : jsstring)
| console_error (text : jsstring) (err : Error).

(** [queueList], the queues the board shows, and what was printed. *)
Record State : Type := {
  queueList : list QueueAdapter;
  boardQueues : list QueueAdapter;
  console : list console_line
}.

(** [let queueList = []] and [createBullBoard({queues: [], ...})] *)
Definition initial : State :=
  {| queueList := []; boardQueues := []; console := [] |}.

(** Asynchronous code over the process state: it ends with a value or
    with a rejection. *)
Definition Async (A : Type) : Type := State -> State * completion A.

#[global] Instance Async_ret : MRet Async :=
  fun A a st => (st, Normal a).
#[global] Instance Async_bind : MBind Async :=
  fun A B f m st =>
    match m st with
    | (st', Normal a) => f a st'
    | (st', Throw e) => (st', Throw e)
    end.

Definition await {A} (c : completion A) : Async A := fun st => (st, c).

Definition assign_queueList (l : list QueueAdapter) : Async unit :=
  fun st => ({| queueList := l;
                boardQueues := boardQueues st;
                console := console st |}, Normal tt).

Definition read_queueList : Async (list QueueAdapter) :=
  fun st => (st, Normal (queueList st)).

(** [setQueues(queues)] of the board: the queues are added to it. *)
Definition setQueues (queues : list QueueAdapter) : Async unit :=
  fun st => ({| queueList := queueList st;
                boardQueues := boardQueues st ++ queues;
                console := console st |}, Normal tt).

Definition print (line : console_line) : Async unit :=
  fun st => ({| queueList := queueList st;
                boardQueues := boardQueues st;
                console := console st ++ [line] |}, Normal tt).

(** [promise.catch(handler)] *)
Definition catch {A} (m : Async A) (handler : Error -> Async A) : Async A :=
  fun st =>
    match m st with
    | (st', Normal a) => (st', Normal a)
    | (st', Throw e) => handler e st'
    end.

(** The body of the [async] function that is called at startup. *)
Definition discover (config : Config) (env : Env) : Async unit :=
  _ ← await (connect env);
  keys ← await (client_keys env (keys_pattern config));
  adapters ← await (Array_map (make_adapter config env) (queue_names keys));
  _ ← assign_queueList adapters;
  current ← read_queueList;
  _ ← setQueues current;
  print (console_log (js "done!")).

(** [(async () => { ... })().catch(err => console.error(...))] *)
Definition startup (config : Config) (env : Env) : Async unit :=
  catch (discover config env)
    (fun err => print (console_error (js "Error setting up queues:") err)).

(** *** The handler that cleans all queues *)

Record Response : Type := {
  status : nat;
  json : jsval
}.

(** The [for ... of] loop: [results] is the array built so far.  Reading
    [queueAdapter.queue] or [queue.name] is outside the inner [try]; in
    the inner [catch], [err.message] is read before the outcome is pushed,
    and when that read throws the loop is left. *)
Fixpoint clean_each (adapters : list QueueAdapter) (results : list jsval)
    : completion (list jsval) :=
  match adapters with
  | [] => Normal results
  | queueAdapter :: rest =>
      q ← queue queueAdapter;
      queueName ← name q;
      match obliterate q (Obj [("force", Bool true)]) with
      | Normal _ =>
          clean_each rest
            (results ++ [Obj [("queue", queueName);
                              ("status", Str (js "success"))]])
      | Throw err =>
          message ← get_property err "message";
          clean_each rest
            (results ++ [Obj [("queue", queueName);
                              ("status", Str (js "error"));
                              ("error", message)]])
      end
  end.

(** [cleanAllQueuesHandler], as a function of the list that [queueList]
    holds when the request arrives: the response it sends, or the value
    with which it ends when the outer [catch] throws as well and no
    response is sent. *)
Definition cleanAllQueuesHandler (queueList : list QueueAdapter)
    : completion Response :=
  match clean_each queueList [] with
  | Normal results =>
      Normal {| status := 200;
                json := Obj [("success", Bool true);
                             ("results", Arr results)] |}
  | Throw err =>
      message ← get_property err "message";
      Normal {| status := 500;
                json := Obj [("success", Bool false); ("error", message)] |}
  end.

(** *** The routes *)

Inductive middleware : Type :=
| morgan
| setProxyUrl
| session
| passport_initialize
| passport_session
| bodyParser_urlencoded
| bodyParser_json
| authRouter
| cleanAllQueues
| ensureLoggedIn (redirectTo : jsstring)
| injectButtonMiddleware
| router.

Inductive layer : Type :=
| app_use (mount : option jsstring) (handlers : list middleware)
| app_post (path : jsstring) (handlers : list middleware).

(** The calls on [app], in the order of the file; [production] is
    [app.get('env') === 'production']. *)
Definition app (config : Config) (production : bool) : list layer :=
  (if production then [] else [app_use None [morgan]])
  ++ [app_use None [setProxyUrl];
      app_use None [session];
      app_use None [passport_initialize];
      app_use None [passport_session];
      app_use None [bodyParser_urlencoded];
      app_use None [bodyParser_json]]
  ++ (if AUTH_ENABLED config
      then [app_use (Some (LOGIN_PAGE config)) [authRouter];
            app_post (HOME_PAGE config ++ js "/api/clean-all-queues")
              [cleanAllQueues]]
      else [app_post (HOME_PAGE config ++ js "/api/clean-all-queues")
              [cleanAllQueues]])
  ++ [app_post (js "/api/clean-all-queues") [cleanAllQueues]]
  ++ (if AUTH_ENABLED config
      then [app_use (Some (HOME_PAGE config))
              [ensureLoggedIn (LOGIN_PAGE config);
               injectButtonMiddleware; router]]
      else [app_use (Some (HOME_PAGE config))
              [injectButtonMiddleware; router]]).

(** How a request travels through the layers.  A layer applies to a
    request by its mount path or by its method and path; the handlers of
    a layer run in order until one ends the request.  [authRouter] comes
    from [./login]: whether it ends a request is left open. *)

Inductive http_method : Type := GET | POST.

Record Request : Type := {
  method : http_method;
  path : jsstring;
  loggedIn : bool
}.

Definition is_post (m : http_method) : bool :=
  match m with POST => true | GET => false end.

(** A mount path covers the paths below it; ["/"] covers every path. *)
Definition mount_matches (mount : option jsstring) (p : jsstring) : bool :=
  match mount with
  | None => true
  | Some m =>
      bool_decide (m = js "/") || bool_decide (m = [])
      || bool_decide (p = m) || starts_with (m ++ js "/") p
  end.

Definition layer_applies (l : layer) (req : Request) : bool :=
  match l with
  | app_use mount _ => mount_matches mount (path req)
  | app_post p _ => is_post (method req) && bool_decide (path req = p)
  end.

Definition layer_handlers (l : layer) : list middleware :=
  match l with
  | app_use _ hs => hs
  | app_post _ hs => hs
  end.

(** Whether a handler ends the request instead of calling [next]. *)
Definition ends_request (authRouter_ends : Request -> bool)
    (m : middleware) (req : Request) : bool :=
  match m with
  | authRouter => authRouter_ends req
  | cleanAllQueues => true
  | router => true
  | ensureLoggedIn _ => negb (loggedIn req)
  | _ => false
  end.

(** The handler that ends the request, if one does. *)
Fixpoint run_handlers (authRouter_ends : Request -> bool)
    (hs : list middleware) (req : Request) : option middleware :=
  match hs with
  | [] => None
  | h :: hs' =>
      if ends_request authRouter_ends h req then Some h
      else run_handlers authRouter_ends hs' req
  end.

Fixpoint dispatch (authRouter_ends : Request -> bool)
    (layers : list layer) (req : Request) : option middleware :=
  match layers with
  | [] => None
  | l :: layers' =>
      if layer_applies l req then
        match run_handlers authRouter_ends (layer_handlers l) req with
        | Some h => Some h
        | None => dispatch authRouter_ends layers' req
        end
      else dispatch authRouter_ends layers' req
  end.

End App.
Export App.

(** ** Vocabulary of the properties *)

Module Props.

Local Open Scope string_scope.
Local Open Scope list_scope.

(** A segment of a key: not empty, without [:] and line terminators. *)
Definition segment (s : jsstring) : bool :=
  match s with
  | [] => false
  | _ :: _ => forallb (fun c => negb (c =? colon)%N && dot c) s
  end.

(** What follows the name in a key: not empty, no line terminators. *)
Definition key_tail (s : jsstring) : bool :=
  match s with
  | [] => false
  | _ :: _ => forallb dot s
  end.

(** A prefix that stands for itself in a key pattern. *)
Definition glob_literal (s : jsstring) : bool :=
  forallb (fun c => negb (is_glob_special c)) s.

(** The key [<prefix>:<name>:<suffix>]. *)
Definition make_key (prefix : jsstring) (entry : jsstring * jsstring)
    : jsstring :=
  prefix ++ [colon] ++ entry.1 ++ [colon] ++ entry.2.

(** Lines 55 to 57 as one step: the names found in the store. *)
Definition scan (config : Config) (env : Env) : completion (list jsstring) :=
  keys ← client_keys env (keys_pattern config);
  Normal (queue_names keys).

(** An adapter whose queue and queue name can be read. *)
Definition readable (a : QueueAdapter) : Prop :=
  exists q n, queue a = Normal q /\ name q = Normal n.

(** An adapter for which one of the two reads throws [err]. *)
Definition read_throws (a : QueueAdapter) (err : Error) : Prop :=
  queue a = Throw err \/ exists q, queue a = Normal q /\ name q = Throw err.

(** The name of the queue of an adapter, when it is a string. *)
Definition adapter_name (a : QueueAdapter) : option jsstring :=
  match queue a with
  | Normal q => match name q with Normal (Str s) => Some s | _ => None end
  | Throw _ => None
  end.

(** The outcome that the specification asks for one queue:
    [{queue, status: 'success'}] when the forced [obliterate] returns,
    [{queue, status: 'error', error}] with the message when it throws. *)
Definition spec_outcome (a : QueueAdapter) : jsval :=
  match queue a with
  | Normal q =>
      match name q with
      | Normal n =>
          match obliterate q (Obj [("force", Bool true)]) with
          | Normal _ =>
              Obj [("queue", n); ("status", Str (js "success"))]
          | Throw err =>
              Obj [("queue", n); ("status", Str (js "error"));
                   ("error", get err "message")]
          end
      | Throw _ => Undefined
      end
  | Throw _ => Undefined
  end.

(** An adapter that can be read and whose forced [obliterate] returns,
    or throws a value other than [null] and [undefined]. *)
Definition isolated (a : QueueAdapter) : Prop :=
  exists q n,
    queue a = Normal q /\ name q = Normal n /\
    forall err, obliterate q (Obj [("force", Bool true)]) = Throw err ->
                nullish err = false.

(** An adapter that can be read and whose forced [obliterate] throws
    [null] or [undefined]. *)
Definition rejects_nullish (a : QueueAdapter) (err : Error) : Prop :=
  exists q n,
    queue a = Normal q /\ name q = Normal n /\
    obliterate q (Obj [("force", Bool true)]) = Throw err /\
    nullish err = true.

(** The routes among the layers: path and handlers of every [app.post]. *)
Definition post_routes (layers : list layer)
    : list (jsstring * list middleware) :=
  omap (fun l => match l with
                 | app_post p hs => Some (p, hs)
                 | app_use _ _ => None
                 end) layers.

(** The layers in front of the first route to [p]. *)
Fixpoint layers_before (p : jsstring) (layers : list layer) : list layer :=
  match layers with
  | [] => []
  | app_post p' hs :: layers' =>
      if bool_decide (p' = p) then [] else app_post p' hs :: layers_before p layers'
  | l :: layers' => l :: layers_before p layers'
  end.

Definition is_login_guard (m : middleware) : bool :=
  match m with
  | ensureLoggedIn _ => true
  | _ => false
  end.

End Props.
Export Props.

(** ** Sample configurations and stores *)

Module Sample.

Local Open Scope string_scope.
Local Open Scope list_scope.

(** The defaults of a local Redis, with the given prefix and client. *)
Definition sample_config (prefix version : jsstring) (auth : bool) : Config :=
  {| REDIS_PORT := Num 6379;
     REDIS_HOST := Str (js "localhost");
     REDIS_DB := Str (js "0");
     REDIS_PASSWORD := Undefined;
     REDIS_USE_TLS := Undefined;
     BULL_PREFIX := prefix;
     BULL_VERSION := Str version;
     AUTH_ENABLED := auth;
     HOME_PAGE := js "/board";
     LOGIN_PAGE := js "/board/login" |}.

(** A reachable store with the given keys, in which [obliterate] throws
    for the queues that [failing] names. *)
Definition sample_env (keys : list jsstring)
    (failing : jsstring -> option Error) : Env :=
  {| connect := Normal tt;
     redis_keys := keys;
     keys_failure := None;
     constructor_failure := fun _ _ => None;
     obliterate_result := fun _ item _ =>
       match failing item with
       | Some err => Throw err
       | None => Normal tt
       end |}.

Definition never_fails (item : jsstring) : option Error := None.

(** A store whose connection works but whose [KEYS] call is rejected. *)
Definition unreachable_env (err : Error) : Env :=
  {| connect := Normal tt;
     redis_keys := [];
     keys_failure := Some err;
     constructor_failure := fun _ _ => None;
     obliterate_result := fun _ _ _ => Normal tt |}.

Definition three_keys (prefix : jsstring) : list jsstring :=
  [prefix ++ js ":A:1"; prefix ++ js ":A:2"; prefix ++ js ":B:1"].

(** A live queue handle and its adapter, as the handler sees them. *)
Definition sample_queue (item : jsstring) (result : completion unit) : Queue :=
  {| library := bullmq;
     name := Normal (Str item);
     opts := Undefined;
     obliterate := fun _ => result |}.

Definition sample_adapter (item : jsstring) (result : completion unit)
    : QueueAdapter :=
  new_adapter BullMQAdapter (sample_queue item result).

(** An adapter whose [queue] property throws when it is read. *)
Definition broken_adapter (err : Error) : QueueAdapter :=
  {| class := BullMQAdapter; queue := Throw err |}.


Definition boom : Error := new_Error (js "boom").

(** Three queues of which the second cannot be obliterated. *)
Definition three_queues : list QueueAdapter :=
  [sample_adapter (js "q1") (Normal tt);
   sample_adapter (js "q2") (Throw boom);
   sample_adapter (js "q3") (Normal tt)].

(** Three queues of which the second rejects with [null]. *)
Definition three_queues_null : list QueueAdapter :=
  [sample_adapter (js "q1") (Normal tt);
   sample_adapter (js "q2") (Throw Null);
   sample_adapter (js "q3") (Normal tt)].

End Sample.
Export Sample.

(** ** The rest of the file: the Redis client, the page, the calls *)

Module Page.

Local Open Scope string_scope.
Local Open Scope list_scope.

(** [const clientConfig = { socket: { port, host, tls }, database }] and
    [if (config.REDIS_PASSWORD) clientConfig.password = ...] *)
Definition clientConfig (config : Config) : jsval :=
  let clientConfig :=
    Obj [("socket",
          Obj [("port", REDIS_PORT config);
               ("host", REDIS_HOST config);
               ("tls", Bool (strict_eq_str (REDIS_USE_TLS config)
                               (js "true")))]);
         ("database", REDIS_DB config)] in
  if truthy (REDIS_PASSWORD config)
  then set_new_prop clientConfig "password" (REDIS_PASSWORD config)
  else clientConfig.

(** The first index at which [pat] occurs in [s], counted from [i]. *)
Fixpoint index_from (pat s : jsstring) (i : nat) : option nat :=
  if starts_with pat s then Some i
  else match s with
       | [] => None
       | _ :: s' => index_from pat s' (S i)
       end.

(** [s.indexOf(pat)] and [s.includes(pat)] *)
Definition indexOf (s pat : jsstring) : option nat := index_from pat s 0.

Definition includes (s pat : jsstring) : bool :=
  bool_decide (is_Some (indexOf s pat)).

Definition dollar : N := 36.
Definition ampersand : N := 38.
Definition apostrophe : N := 39.
Definition backtick : N := 96.

(** [GetSubstitution] for a search string: in the replacement [$$] is a
    dollar, [$&] the match, [$`] the text before it and [$'] the text after
    it; there are no groups, so any other [$] stands for itself. *)
Fixpoint get_substitution (matched before after repl : jsstring)
    : jsstring :=
  match repl with
  | [] => []
  | c :: r =>
      if (c =? dollar)%N then
        match r with
        | d :: r' =>
            if (d =? dollar)%N
            then dollar :: get_substitution matched before after r'
            else if (d =? ampersand)%N
            then matched ++ get_substitution matched before after r'
            else if (d =? backtick)%N
            then before ++ get_substitution matched before after r'
            else if (d =? apostrophe)%N
            then after ++ get_substitution matched before after r'
            else dollar :: get_substitution matched before after r
        | [] => [dollar]
        end
      else c :: get_substitution matched before after r
  end.

(** [s.replace(pat, repl)] for a search string: the first occurrence. *)
Definition String_replace (s pat repl : jsstring) : jsstring :=
  match indexOf s pat with
  | None => s
  | Some pos =>
      let before := take pos s in
      let after := drop (pos + length pat) s in
      before ++ get_substitution pat before after repl ++ after
  end.

(** The text of [customScript] up to the first [${config.HOME_PAGE}]. *)
Definition script_head : jsstring :=
  js "
					<script>
						function addCleanAllButton() {
							const targetDiv = document.querySelector('header') || document.querySelector('nav') || document.body;
							if (!document.getElementById('clean-all-queues-btn')) {
								const button = document.createElement('button');
								button.id = 'clean-all-queues-btn';
								button.textContent = 'Clean All Queues';
								button.style.cssText = 'position: fixed; bottom: 20px; right: 20px; z-index: 9999; padding: 12px 24px; background: linear-gradient(135deg, #667eea 0%, #764ba2 100%); color: white; border: none; border-radius: 8px; cursor: pointer; font-weight: 600; font-size: 14px; box-shadow: 0 4px 15px rgba(102, 126, 234, 0.4); transition: all 0.3s ease; font-family: -apple-system, BlinkMacSystemFont, "
  ++ [34%N]
  ++ js "Segoe UI"
  ++ [34%N]
  ++ js ", Roboto, "
  ++ [34%N]
  ++ js "Helvetica Neue"
  ++ [34%N]
  ++ js ", Arial, sans-serif;';

								// Add hover effect
								button.onmouseenter = function() {
									this.style.transform = 'translateY(-2px)';
									this.style.boxShadow = '0 6px 20px rgba(102, 126, 234, 0.6)';
								};
								button.onmouseleave = function() {
									this.style.transform = 'translateY(0)';
									this.style.boxShadow = '0 4px 15px rgba(102, 126, 234, 0.4)';
								};

								button.onclick = async function() {
									if (!confirm('Are you sure you want to clean ALL queues? This will remove all jobs from all queues!')) {
										return;
									}

									button.disabled = true;
									button.textContent = 'Cleaning...';

									try {
										const basePath = '".

(** The text between the two [${config.HOME_PAGE}]. *)
Definition script_middle : jsstring :=
  js "' === '/' ? '' : '".

(** The text after the second [${config.HOME_PAGE}]. *)
Definition script_tail : jsstring :=
  js "';
										const apiUrl = basePath + '/api/clean-all-queues';
										const response = await fetch(apiUrl, {
											method: 'POST',
											headers: {
												'Content-Type': 'application/json'
											}
										});

										const result = await response.json();

										if (result.success) {
											alert('All queues cleaned successfully!\n\n' +
												result.results.map(r => r.queue + ': ' + r.status).join('\n'));
											window.location.reload();
										} else {
											alert('Error cleaning queues: ' + result.error);
										}
									} catch (err) {
										alert('Error: ' + err.message);
									} finally {
										button.disabled = false;
										button.textContent = 'Clean All Queues';
									}
								};

								document.body.appendChild(button);
							}
						}

						// Try to add button when DOM is ready
						if (document.readyState === 'loading') {
							document.addEventListener('DOMContentLoaded', addCleanAllButton);
						} else {
							addCleanAllButton();
						}

						// Also try after a short delay to ensure React has rendered
						setTimeout(addCleanAllButton, 500);
						setTimeout(addCleanAllButton, 1500);
					</script>
				".

(** [customScript]: the template with [config.HOME_PAGE] put in twice. *)
Definition customScript (config : Config) : jsstring :=
  script_head ++ HOME_PAGE config ++ script_middle ++ HOME_PAGE config
  ++ script_tail.

(** The body of the replaced [res.send]: what is handed to the original
    [send] for [data]. *)
Definition injected_send (config : Config) (data : jsval) : jsval :=
  match data with
  | Str text =>
      if includes text (js "<!DOCTYPE html>")
      then Str (String_replace text (js "</body>")
                  (customScript config ++ js "</body>"))
      else data
  | _ => data
  end.

(** [injectButtonMiddleware]: what a later [res.send(data)] sends for a
    request with [req.path]; the middleware always calls [next]. *)
Definition injectButtonMiddleware_send (config : Config)
    (req_path : jsstring) (data : jsval) : jsval :=
  if bool_decide (req_path = js "/") || bool_decide (req_path = [])
  then injected_send config data
  else data.

(** The loop of the handler once more, with the calls of [obliterate] it
    makes: the queue name and the argument of each call, in order. *)
Fixpoint clean_each_traced (adapters : list QueueAdapter)
    (results : list jsval) (calls : list (jsval * jsval))
    : completion (list jsval) * list (jsval * jsval) :=
  match adapters with
  | [] => (Normal results, calls)
  | queueAdapter :: rest =>
      match queue queueAdapter with
      | Throw err => (Throw err, calls)
      | Normal q =>
          match name q with
          | Throw err => (Throw err, calls)
          | Normal queueName =>
              let arg := Obj [("force", Bool true)] in
              match obliterate q arg with
              | Normal _ =>
                  clean_each_traced rest
                    (results ++ [Obj [("queue", queueName);
                                      ("status", Str (js "success"))]])
                    (calls ++ [(queueName, arg)])
              | Throw err =>
                  match get_property err "message" with
                  | Throw err' => (Throw err', calls ++ [(queueName, arg)])
                  | Normal message =>
                      clean_each_traced rest
                        (results ++ [Obj [("queue", queueName);
                                          ("status", Str (js "error"));
                                          ("error", message)]])
                        (calls ++ [(queueName, arg)])
                  end
              end
          end
      end
  end.

(** The name of the queue of an adapter that can be read. *)
Definition queue_name (a : QueueAdapter) : option jsval :=
  match queue a with
  | Normal q => match name q with Normal n => Some n | Throw _ => None end
  | Throw _ => None
  end.

(** [{ force: true }] *)
Definition force_true : jsval := Obj [("force", Bool true)].

(** One call of [obliterate({force: true})] for every adapter of the
    list that can be read, under the name of its queue. *)
Definition expected_calls (adapters : list QueueAdapter)
    : list (jsval * jsval) :=
  omap (fun a => match queue_name a with
                 | Some n => Some (n, force_true)
                 | None => None
                 end) adapters.

(** The client and the adapter class that [BULL_VERSION] selects, and
    the adapter that the callback of [.map] returns for [item] when the
    constructor does not throw. *)
Definition version_library (config : Config) : client_library :=
  if strict_eq_str (BULL_VERSION config) (js "BULLMQ") then bullmq else bull.

Definition version_class (config : Config) : adapter_class :=
  if strict_eq_str (BULL_VERSION config) (js "BULLMQ")
  then BullMQAdapter else BullAdapter.

Definition version_options (config : Config) : jsval :=
  if strict_eq_str (BULL_VERSION config) (js "BULLMQ")
  then bullmq_options config else redisConfig config.

Definition built_adapter (config : Config) (env : Env) (item : jsstring)
    : QueueAdapter :=
  new_adapter (version_class config)
    {| library := version_library config;
       name := Normal (Str item);
       opts := version_options config;
       obliterate := obliterate_result env (version_library config) item |}.

End Page.
Export Page.

(** * Properties *)

(** ** The order of strings *)

Section string_order.

Lemma str_compare_refl s : str_compare s s = Eq.
Proof.
  induction s as [|a s IH]; simpl; [reflexivity|].
  rewrite N.compare_refl. exact IH.
Qed.

Lemma str_compare_eq s t : str_compare s t = Eq -> s = t.
Proof.
  revert t. induction s as [|a s IH]; intros [|b t]; simpl; try discriminate.
  - reflexivity.
  - destruct (a ?= b)%N eqn:E; try discriminate.
    intros H. apply N.compare_eq in E. subst b. f_equal. apply IH, H.
Qed.

Lemma str_compare_antisym s t : str_compare t s = CompOpp (str_compare s t).
Proof.
  revert t. induction s as [|a s IH]; intros [|b t]; simpl; try reflexivity.
  rewrite (N.compare_antisym a b).
  destruct (a ?= b)%N; simpl; auto.
Qed.

Lemma str_compare_lt_trans s t u :
  str_compare s t = Lt -> str_compare t u = Lt -> str_compare s u = Lt.
Proof.
  revert t u. induction s as [|a s IH]; intros [|b t] [|c u]; simpl;
    try discriminate; try reflexivity.
  destruct (a ?= b)%N eqn:Eab; try discriminate;
    destruct (b ?= c)%N eqn:Ebc; try discriminate; intros H1 H2.
  - apply N.compare_eq in Eab, Ebc. subst. rewrite N.compare_refl. eauto.
  - apply N.compare_eq in Eab. subst. rewrite Ebc. reflexivity.
  - apply N.compare_eq in Ebc. subst. rewrite Eab. reflexivity.
  - rewrite N.compare_lt_iff in Eab, Ebc.
    assert (E : (a ?= c)%N = Lt) by (apply N.compare_lt_iff; lia).
    rewrite E. reflexivity.
Qed.

#[global] Instance str_le_total : Total str_le.
Proof.
  intros s t. unfold str_le. rewrite (str_compare_antisym s t).
  destruct (str_compare s t); simpl; [left|left|right]; discriminate.
Qed.

#[global] Instance str_le_trans : Transitive str_le.
Proof.
  intros s t u. unfold str_le. intros H1 H2.
  destruct (str_compare s t) eqn:E1; [| |congruence].
  - apply str_compare_eq in E1. subst. exact H2.
  - destruct (str_compare t u) eqn:E2; [| |congruence].
    + apply str_compare_eq in E2. subst. rewrite E1. discriminate.
    + rewrite (str_compare_lt_trans s t u E1 E2). discriminate.
Qed.

#[global] Instance str_le_antisym : AntiSymm eq str_le.
Proof.
  intros s t. unfold str_le. rewrite (str_compare_antisym s t).
  destruct (str_compare s t) eqn:E; simpl; intros H1 H2; try congruence.
  apply str_compare_eq, E.
Qed.

Lemma str_le_neq_lt s t : str_le s t -> s <> t -> str_lt s t.
Proof.
  unfold str_le, str_lt. destruct (str_compare s t) eqn:E; try congruence.
  intros _ H. destruct H. apply str_compare_eq, E.
Qed.

End string_order.

(** ** Sets and sorting of names *)

Section names.

Lemma Set_add_elem s v x : x ∈ Set_add s v <-> x ∈ s \/ x = v.
Proof.
  unfold Set_add. destruct (decide (v ∈ s)) as [Hin|Hin].
  - split; [auto|]. intros [H| ->]; assumption.
  - rewrite elem_of_app, list_elem_of_singleton. reflexivity.
Qed.

Lemma Set_add_NoDup s v : NoDup s -> NoDup (Set_add s v).
Proof.
  intros Hs. unfold Set_add. destruct (decide (v ∈ s)) as [Hin|Hin]; [exact Hs|].
  apply NoDup_app. split; [exact Hs|]. split.
  - intros x Hx Hx'. apply list_elem_of_singleton in Hx'. subst. auto.
  - apply NoDup_singleton.
Qed.

Lemma foldl_Set_add_elem values s x :
  x ∈ foldl Set_add s values <-> x ∈ s \/ x ∈ values.
Proof.
  revert s. induction values as [|v values IH]; intros s; simpl.
  - rewrite elem_of_nil. tauto.
  - rewrite IH, Set_add_elem, elem_of_cons. tauto.
Qed.

Lemma foldl_Set_add_NoDup values s :
  NoDup s -> NoDup (foldl Set_add s values).
Proof.
  revert s. induction values as [|v values IH]; intros s Hs; simpl; [exact Hs|].
  apply IH, Set_add_NoDup, Hs.
Qed.

Lemma Set_new_elem values x : x ∈ Set_new values <-> x ∈ values.
Proof.
  unfold Set_new. rewrite foldl_Set_add_elem, elem_of_nil. tauto.
Qed.

Lemma Set_new_NoDup values : NoDup (Set_new values).
Proof. apply foldl_Set_add_NoDup, NoDup_nil_2. Qed.

Lemma Array_sort_elem l x : x ∈ Array_sort l <-> x ∈ l.
Proof. unfold Array_sort. rewrite merge_sort_Permutation. reflexivity. Qed.

Lemma Array_sort_NoDup l : NoDup l -> NoDup (Array_sort l).
Proof. unfold Array_sort. rewrite merge_sort_Permutation. auto. Qed.

Lemma Array_sort_sorted l : StronglySorted str_le (Array_sort l).
Proof. apply StronglySorted_merge_sort; apply _. Qed.

(** The result of [sort] does not depend on the algorithm: a list has one
    ascending arrangement. *)
Lemma Array_sort_unique l l' :
  l' ≡ₚ l -> StronglySorted str_le l' -> l' = Array_sort l.
Proof.
  intros Hp Hs. apply (StronglySorted_unique str_le); [exact Hs| |].
  - apply Array_sort_sorted.
  - unfold Array_sort. rewrite merge_sort_Permutation. exact Hp.
Qed.

Lemma sorted_NoDup_strict l :
  StronglySorted str_le l -> NoDup l -> StronglySorted str_lt l.
Proof.
  induction 1 as [|x l Hs IH Hx]; intros Hnd; constructor.
  - apply IH. apply NoDup_cons in Hnd. tauto.
  - apply NoDup_cons in Hnd. destruct Hnd as [Hx' _].
    apply Forall_forall. intros y Hy.
    apply str_le_neq_lt.
    + rewrite Forall_forall in Hx. apply Hx, Hy.
    + intros ->. auto.
Qed.

Lemma queue_names_elem keys x :
  x ∈ queue_names keys <-> exists key, key ∈ keys /\ x = queue_name_of_key key.
Proof.
  unfold queue_names, Array_from.
  rewrite Array_sort_elem, Set_new_elem, list_elem_of_fmap.
  split; intros (key & H1 & H2); exists key; auto.
Qed.

Lemma queue_names_NoDup keys : NoDup (queue_names keys).
Proof. apply Array_sort_NoDup, Set_new_NoDup. Qed.

Lemma queue_names_sorted keys : StronglySorted str_le (queue_names keys).
Proof. apply Array_sort_sorted. Qed.

Lemma queue_names_strict keys : StronglySorted str_lt (queue_names keys).
Proof.
  apply sorted_NoDup_strict; [apply queue_names_sorted|apply queue_names_NoDup].
Qed.

End names.

(** ** The regular expression of the scanner *)

Section key_regex.

Lemma lazy_plus_sound {R} atom i s k (r : R) :
  lazy_plus atom i s k = Some r ->
  exists n, 0 < n <= length s /\ forallb atom (take n s) = true
            /\ k (i + n) (drop n s) = Some r.
Proof.
  revert i. induction s as [|c s IH]; intros i; simpl; [discriminate|].
  destruct (atom c) eqn:Hc; [|discriminate].
  destruct (k (S i) s) as [r'|] eqn:Hk.
  - intros [= <-]. exists 1. simpl. rewrite Hc, ?take_0, ?drop_0. simpl.
    replace (i + 1) with (S i) by lia. repeat split; auto; lia.
  - intros H. apply IH in H as (n & Hn & Hall & Hkn).
    exists (S n). simpl. rewrite Hc, Hall.
    replace (i + S n) with (S i + n) by lia. repeat split; auto; lia.
Qed.

Lemma lazy_plus_skip {R} atom i p rest k (r : R) :
  p <> [] -> forallb atom p = true ->
  (forall n, 0 < n < length p -> k (i + n) (drop n p ++ rest) = None) ->
  k (i + length p) rest = Some r ->
  lazy_plus atom i (p ++ rest) k = Some r.
Proof.
  revert i. induction p as [|c p IH]; intros i Hne Hall Hskip Hend; [done|].
  simpl in *. apply andb_true_iff in Hall as [Hc Hall]. rewrite Hc.
  destruct p as [|d p].
  - simpl in *. replace (i + 1) with (S i) in Hend by lia. rewrite Hend. done.
  - specialize (Hskip 1) as H1. simpl in H1.
    replace (i + 1) with (S i) in H1 by lia.
    change ((d :: p) ++ rest) with (d :: p ++ rest).
    rewrite H1 by lia. apply IH; [done|exact Hall| |].
    + intros n Hn. specialize (Hskip (S n)). simpl in Hskip.
      replace (S i + n) with (i + S n) by lia. apply Hskip. simpl in Hn. lia.
    + replace (S i + length (d :: p)) with (i + S (length (d :: p))) by lia.
      exact Hend.
Qed.

Lemma drop_inside {A} (p : list A) n :
  0 < n < length p -> exists c tl, drop n p = c :: tl /\ c ∈ p.
Proof.
  intros Hn. destruct (drop n p) as [|c tl] eqn:E.
  - apply (f_equal length) in E. rewrite length_drop in E. simpl in E. lia.
  - exists c, tl. split; [done|].
    rewrite <- (take_drop n p), E, elem_of_app, elem_of_cons. auto.
Qed.

Lemma segment_spec s :
  segment s = true ->
  s <> [] /\ forallb dot s = true /\ forall c, c ∈ s -> (c =? colon)%N = false.
Proof.
  unfold segment. destruct s as [|a s]; [discriminate|]. intros H.
  split; [done|]. rewrite forallb_forall in H. split.
  - apply forallb_forall. intros c Hc. apply H in Hc.
    apply andb_true_iff in Hc. tauto.
  - intros c Hc. apply list_elem_of_In, H in Hc.
    apply andb_true_iff in Hc as [Hc _]. apply negb_true_iff in Hc. done.
Qed.

Lemma key_tail_spec s :
  key_tail s = true -> s <> [] /\ forallb dot s = true.
Proof. unfold key_tail. destruct s; [discriminate|]. intros H. split; done. Qed.

Lemma exec_from_unfold r i s :
  exec_from r i s
  = match matcher r i s None (fun j _ cap => Some (i, j, cap)) with
    | Some m => Some m
    | None =>
        match s with
        | [] => None
        | _ :: s' => exec_from r (S i) s'
        end
    end.
Proof. destruct s; reflexivity. Qed.

Lemma exec_from_here r i s m :
  matcher r i s None (fun j _ cap => Some (i, j, cap)) = Some m ->
  exec_from r i s = Some m.
Proof. destruct s; simpl; intros ->; done. Qed.

(** On a key [p:n:sfx] of three well-formed parts the pattern matches the
    whole key and captures [n]. *)
Lemma exec_key_regex_well_formed p n sfx :
  segment p = true -> segment n = true -> key_tail sfx = true ->
  exec key_regex (p ++ [colon] ++ n ++ [colon] ++ sfx)
  = Some (0, length (p ++ [colon] ++ n ++ [colon] ++ sfx), Some n).
Proof.
  intros Hp Hn Hs.
  apply segment_spec in Hp as (Hp0 & Hpd & Hpc).
  apply segment_spec in Hn as (Hn0 & Hnd & Hnc).
  apply key_tail_spec in Hs as (Hs0 & Hsd).
  unfold exec.
  set (key := p ++ [colon] ++ n ++ [colon] ++ sfx).
  assert (Hm : matcher key_regex 0 key None
                 (fun j _ cap => Some (0, j, cap))
               = Some (0, length key, Some n)).
  { subst key. cbn [key_regex matcher Nat.eqb].
    apply lazy_plus_skip; [done|done| |].
    - intros m Hm. destruct (drop_inside p m Hm) as (c & tl & -> & Hc).
      simpl. rewrite (Hpc c Hc). done.
    - simpl. apply lazy_plus_skip; [done|done| |].
      + intros m Hm. destruct (drop_inside n m Hm) as (c & tl & -> & Hc).
        simpl. rewrite (Hnc c Hc). done.
      + simpl. rewrite <- (app_nil_r sfx) at 1.
        apply lazy_plus_skip; [done|done| |].
        * intros m Hm. destruct (drop_inside sfx m Hm) as (c & tl & -> & Hc).
          done.
        * f_equal. f_equal; [f_equal|f_equal].
          -- rewrite !length_app. simpl. rewrite !length_app. simpl. lia.
          -- replace (length p + length n - length p) with (length n) by lia.
             rewrite take_app_length. done. }
  apply exec_from_here, Hm.
Qed.

Lemma exec_from_key_regex_later i s :
  i <> 0 -> exec_from key_regex i s = None.
Proof.
  revert i. induction s as [|c s IH]; intros i Hi;
    destruct i as [|i]; try done; simpl.
  apply IH. done.
Qed.

(** Whenever the pattern matches, it matches the whole key and the capture
    is a non-empty part of it that lies between two colons. *)
Lemma exec_key_regex_sound s i j cap :
  exec key_regex s = Some (i, j, cap) ->
  i = 0 /\ j = length s /\
  exists p n sfx, cap = Some n /\ n <> [] /\ p <> [] /\ sfx <> [] /\
                  s = p ++ [colon] ++ n ++ [colon] ++ sfx.
Proof.
  unfold exec. intros H.
  assert (Hm : matcher key_regex 0 s None (fun j _ cap => Some (0, j, cap))
               = Some (i, j, cap)).
  { rewrite exec_from_unfold in H.
    destruct (matcher key_regex 0 s None _) as [m|] eqn:E; [exact H|].
    destruct s as [|c s]; [done|].
    rewrite exec_from_key_regex_later in H; done. }
  clear H. cbn [key_regex matcher Nat.eqb] in Hm.
  apply lazy_plus_sound in Hm as (a & Ha & _ & Hm).
  destruct (drop a s) as [|x r1] eqn:E1; [done|].
  destruct (x =? colon)%N eqn:Hx; [|done]. apply N.eqb_eq in Hx. subst x.
  apply lazy_plus_sound in Hm as (b & Hb & _ & Hm).
  destruct (drop b r1) as [|y r2] eqn:E2; [done|].
  destruct (y =? colon)%N eqn:Hy; [|done]. apply N.eqb_eq in Hy. subst y.
  apply lazy_plus_sound in Hm as (c & Hc & _ & Hm).
  destruct (drop c r2) as [|z r3] eqn:E3; [|done].
  injection Hm as <- <- <-.
  assert (Hs : s = take a s ++ [colon] ++ take b r1 ++ [colon] ++ r2).
  { rewrite <- (take_drop a s) at 1. rewrite E1.
    rewrite <- (take_drop b r1) at 1. rewrite E2. done. }
  assert (Hc' : c = length r2).
  { apply (f_equal length) in E3. rewrite length_drop in E3. simpl in E3. lia. }
  split; [done|]. split.
  - apply (f_equal length) in Hs.
    repeat (rewrite ?length_app, ?length_take in Hs; simpl in Hs). lia.
  - exists (take a s), (take b r1), r2.
    replace (a + b - a) with b by lia.
    assert (Hr1 : length r1 <= length s).
    { apply (f_equal length) in E1. rewrite length_drop in E1.
      simpl in E1. lia. }
    split; [done|]. split; [|split; [|split; [|exact Hs]]].
    + intros E. apply (f_equal length) in E. rewrite length_take in E.
      simpl in E. lia.
    + intros E. apply (f_equal length) in E. rewrite length_take in E.
      simpl in E. lia.
    + intros ->. simpl in Hc. lia.
Qed.

Lemma queue_name_of_key_well_formed p n sfx :
  segment p = true -> segment n = true -> key_tail sfx = true ->
  queue_name_of_key (p ++ [colon] ++ n ++ [colon] ++ sfx) = n.
Proof.
  intros Hp Hn Hs. unfold queue_name_of_key, replace_with_group1.
  rewrite exec_key_regex_well_formed by done.
  rewrite take_0, drop_all. simpl. apply app_nil_r.
Qed.

Lemma queue_name_of_key_nonempty key :
  key <> [] -> queue_name_of_key key <> [].
Proof.
  intros Hk. unfold queue_name_of_key, replace_with_group1.
  destruct (exec key_regex key) as [[[i j] cap]|] eqn:E; [|done].
  apply exec_key_regex_sound in E
    as (-> & -> & p & n & sfx & -> & Hn & _ & _ & _).
  rewrite take_0, drop_all. simpl. rewrite app_nil_r. done.
Qed.

End key_regex.

(** ** Key patterns *)

Section key_patterns.

Lemma glob_literal_cons c p :
  glob_literal (c :: p) = true ->
  ((c =? star)%N = false /\ (c =? qmark)%N = false /\
   (c =? lbracket)%N = false /\ (c =? backslash)%N = false)
  /\ glob_literal p = true.
Proof.
  unfold glob_literal. simpl. intros H.
  apply andb_true_iff in H as [Hc Hp]. split; [|exact Hp].
  apply negb_true_iff in Hc. unfold is_glob_special in Hc.
  repeat (apply orb_false_iff in Hc as [Hc ?]). done.
Qed.

Lemma star_matches_all s : toks_match [GStar] s = true.
Proof.
  induction s as [|c s IH]; [reflexivity|].
  simpl in *. exact IH.
Qed.

Lemma starts_with_app p s : starts_with p (p ++ s) = true.
Proof.
  induction p as [|c p IH]; simpl; [done|]. rewrite N.eqb_refl. exact IH.
Qed.

Lemma starts_with_nonempty p s :
  p <> [] -> starts_with p s = true -> s <> [].
Proof. destruct p, s; simpl; done. Qed.

(** For a prefix without pattern characters, [<prefix>:*] selects the keys
    that start with [<prefix>:]. *)
Lemma glob_match_prefix prefix key :
  glob_literal prefix = true ->
  glob_match (prefix ++ js ":*") key = starts_with (prefix ++ [colon]) key.
Proof.
  unfold glob_match. revert key.
  induction prefix as [|c p IH]; intros key Hlit.
  - destruct key as [|x key]; [reflexivity|].
    change (tokens None ([] ++ js ":*")) with [GChar colon; GStar].
    change (starts_with ([] ++ [colon]) (x :: key))
      with ((colon =? x)%N && true).
    cbn [toks_match tok_matches].
    rewrite star_matches_all. reflexivity.
  - apply glob_literal_cons in Hlit as [(H1 & H2 & H3 & H4) Hlit].
    cbn [Datatypes.app tokens]. rewrite H1, H2, H3, H4.
    destruct key as [|x key]; [reflexivity|].
    cbn [toks_match tok_matches starts_with]. rewrite IH by exact Hlit.
    reflexivity.
Qed.

Lemma client_keys_elem env prefix keys key :
  glob_literal prefix = true ->
  client_keys env (prefix ++ js ":*") = Normal keys ->
  key ∈ keys <->
  key ∈ redis_keys env /\ starts_with (prefix ++ [colon]) key = true.
Proof.
  intros Hlit. unfold client_keys.
  destruct (keys_failure env); [done|]. intros [= <-].
  rewrite list_elem_of_filter, glob_match_prefix by exact Hlit. tauto.
Qed.

(** A namespace that only begins like the prefix is not selected. *)
Lemma glob_match_other_namespace prefix more rest :
  glob_literal prefix = true -> segment more = true ->
  glob_match (prefix ++ js ":*") (prefix ++ more ++ [colon] ++ rest) = false.
Proof.
  intros Hlit Hmore. rewrite glob_match_prefix by exact Hlit.
  apply segment_spec in Hmore as (Hne & _ & Hc).
  induction prefix as [|c p IH]; cbn [starts_with Datatypes.app].
  - destruct more as [|m more]; [done|]. cbn [starts_with Datatypes.app].
    specialize (Hc m (list_elem_of_here _ _)).
    rewrite N.eqb_sym, Hc. done.
  - rewrite N.eqb_refl. apply glob_literal_cons in Hlit as [_ Hlit].
    apply IH, Hlit.
Qed.

End key_patterns.

(** ** The scanner *)

Section scanner.

Local Open Scope string_scope.
Local Open Scope list_scope.

Lemma make_key_starts_with prefix e :
  starts_with (prefix ++ [colon]) (make_key prefix e) = true.
Proof.
  unfold make_key. rewrite (assoc_L (++) prefix [colon]).
  apply starts_with_app.
Qed.

Lemma queue_name_of_make_key prefix e :
  segment prefix = true -> segment e.1 = true -> key_tail e.2 = true ->
  queue_name_of_key (make_key prefix e) = e.1.
Proof. apply queue_name_of_key_well_formed. Qed.

Lemma segment_no_colon s : segment s = true -> colon ∉ s.
Proof.
  intros Hs Hin. apply segment_spec in Hs as (_ & _ & Hc).
  specialize (Hc colon Hin). rewrite N.eqb_refl in Hc. done.
Qed.

(** Keys whose prefix contains the separator: every name is read as the
    second segment of the prefix. *)
Example scan_prefix_with_colon :
  scan (sample_config (js "app:bull") (js "BULLMQ") false)
       (sample_env (three_keys (js "app:bull")) never_fails)
  = Normal [js "bull"].
Proof. vm_compute. reflexivity. Qed.

(** A key with a line feed in its last part is not matched by the pattern
    and is taken as a name as it is. *)
Example scan_key_with_line_feed :
  scan (sample_config (js "bull") (js "BULLMQ") false)
       (sample_env [js "bull:A:1" ++ [10%N] ++ js "2"] never_fails)
  = Normal [js "bull:A:1" ++ [10%N] ++ js "2"].
Proof. vm_compute. reflexivity. Qed.

(** A key of two segments, and a key with an empty last part, pass
    through whole; an empty second segment moves the name one segment
    on, with the separator in front. *)
Example scan_short_keys :
  scan (sample_config (js "bull") (js "BULLMQ") false)
       (sample_env [js "bull:A"; js "bull:B:"; js "bull::c:d:e"] never_fails)
  = Normal [js ":c"; js "bull:A"; js "bull:B:"].
Proof. vm_compute. reflexivity. Qed.

(** A prefix with a pattern character selects the keys of several
    namespaces, whose names are then merged. *)
Example scan_prefix_with_pattern_character :
  scan (sample_config (js "bul?") (js "BULLMQ") false)
       (sample_env [js "bull:A:1"; js "bulk:A:2"; js "bulk:B:1"] never_fails)
  = Normal [js "A"; js "B"].
Proof. vm_compute. reflexivity. Qed.

(** The three keys of the specification, next to keys of a namespace that
    begins like the prefix. *)
Example scan_three_keys :
  scan (sample_config (js "bull") (js "BULLMQ") false)
       (sample_env (three_keys (js "bull")
                    ++ [js "bullmq:C:1"; js "bull2:D:1"]) never_fails)
  = Normal [js "A"; js "B"].
Proof. vm_compute. reflexivity. Qed.

(** C3, as stated, fails: with the prefix [app:bull] the keys
    [app:bull:A:1], [app:bull:A:2], [app:bull:B:1] are of the form
    prefix:name:suffix for the names [A] and [B], and the scanner
    returns the single name [bull]. *)
Lemma scan_middle_segments_counterexample :
  ~ (forall config env (entries : list (jsstring * jsstring)),
       keys_failure env = None ->
       redis_keys env = map (make_key (BULL_PREFIX config)) entries ->
       exists names,
         scan config env = Normal names /\
         forall n, n ∈ names <-> n ∈ entries.*1).
Proof.
  intros H.
  destruct (H (sample_config (js "app:bull") (js "BULLMQ") false)
              (sample_env (three_keys (js "app:bull")) never_fails)
              [(js "A", js "1"); (js "A", js "2"); (js "B", js "1")]
              eq_refl eq_refl) as (names & Hscan & Hn).
  rewrite scan_prefix_with_colon in Hscan. injection Hscan as <-.
  assert (Hin : js "A" ∈ [js "bull"]).
  { apply Hn. vm_compute. apply list_elem_of_here. }
  apply list_elem_of_singleton in Hin. discriminate Hin.
Qed.

(** C3, amended: when the prefix and every name are non-empty and free of
    [:], no key contains a line terminator, every last part is non-empty
    and the prefix has no pattern characters, the scanner returns exactly
    the distinct names, ascending and without duplicates, whatever keys of
    other namespaces (not starting with [<prefix>:]) the store holds; a
    key of a namespace that only begins like the prefix is not matched by
    the pattern. *)
Theorem scan_well_formed_keys config env
    (entries : list (jsstring * jsstring)) :
  keys_failure env = None ->
  glob_literal (BULL_PREFIX config) = true ->
  segment (BULL_PREFIX config) = true ->
  (forall e, e ∈ entries -> segment e.1 = true /\ key_tail e.2 = true) ->
  (forall e, e ∈ entries ->
     make_key (BULL_PREFIX config) e ∈ redis_keys env) ->
  (forall key, key ∈ redis_keys env ->
     starts_with (BULL_PREFIX config ++ [colon]) key = true ->
     exists e, e ∈ entries /\ key = make_key (BULL_PREFIX config) e) ->
  exists names,
    scan config env = Normal names /\
    (forall n, n ∈ names <-> n ∈ entries.*1) /\
    NoDup names /\ StronglySorted str_lt names /\
    (forall more rest, segment more = true ->
       glob_match (keys_pattern config)
         (BULL_PREFIX config ++ more ++ [colon] ++ rest) = false).
Proof.
  intros Hok Hlit Hseg Hwf Hin Hform.
  destruct (client_keys env (keys_pattern config)) as [keys|err] eqn:Hkeys.
  2: { unfold client_keys in Hkeys. rewrite Hok in Hkeys. done. }
  exists (queue_names keys). split; [|split; [|split; [|split]]].
  5: { intros more rest Hmore. apply glob_match_other_namespace; done. }
  - unfold scan. rewrite Hkeys. reflexivity.
  - intros n. rewrite queue_names_elem, list_elem_of_fmap. split.
    + intros (key & Hkey & ->).
      apply (client_keys_elem env _ keys key Hlit Hkeys) in Hkey
        as [Hstore Hstart].
      destruct (Hform key Hstore Hstart) as (e & He & ->).
      exists e. split; [|exact He].
      destruct (Hwf e He) as [H1 H2]. apply queue_name_of_make_key; done.
    + intros (e & -> & He). exists (make_key (BULL_PREFIX config) e). split.
      * apply (client_keys_elem env _ keys _ Hlit Hkeys). split.
        -- apply Hin, He.
        -- apply make_key_starts_with.
      * destruct (Hwf e He) as [H1 H2].
        symmetry. apply queue_name_of_make_key; done.
  - apply queue_names_NoDup.
  - apply queue_names_strict.
Qed.

Lemma scan_well_formed_keys_witness :
  let config := sample_config (js "bull") (js "BULLMQ") false in
  let env := sample_env (three_keys (js "bull") ++ [js "bullmq:C:1"])
               never_fails in
  exists names,
    scan config env = Normal names /\
    (forall n, n ∈ names <->
               n ∈ [(js "A", js "1"); (js "A", js "2"); (js "B", js "1")].*1)
    /\ NoDup names /\ StronglySorted str_lt names /\
    (forall more rest, segment more = true ->
       glob_match (keys_pattern config)
         (BULL_PREFIX config ++ more ++ [colon] ++ rest) = false).
Proof.
  intros config env.
  apply (scan_well_formed_keys config env
           [(js "A", js "1"); (js "A", js "2"); (js "B", js "1")]).
  - reflexivity.
  - reflexivity.
  - reflexivity.
  - intros e He. apply list_elem_of_In in He.
    destruct He as [<-|[<-|[<-|[]]]]; split; reflexivity.
  - intros e He. apply list_elem_of_In in He. apply list_elem_of_In.
    destruct He as [<-|[<-|[<-|[]]]]; vm_compute; tauto.
  - intros key Hk Hs. apply list_elem_of_In in Hk.
    destruct Hk as [<-|[<-|[<-|[<-|[]]]]].
    + exists (js "A", js "1"). split; [|reflexivity].
      apply list_elem_of_In. vm_compute. tauto.
    + exists (js "A", js "2"). split; [|reflexivity].
      apply list_elem_of_In. vm_compute. tauto.
    + exists (js "B", js "1"). split; [|reflexivity].
      apply list_elem_of_In. vm_compute. tauto.
    + vm_compute in Hs. discriminate Hs.
Defined.

(** C4, as stated, fails: the key [bull:A] is returned by the scan of
    [bull:*], and the name taken from it is the key itself, with the
    prefix and the separator in it. *)
Lemma queue_name_artifacts_counterexample :
  ~ (forall config env keys key,
       client_keys env (keys_pattern config) = Normal keys ->
       key ∈ keys ->
       queue_name_of_key key <> [] /\ colon ∉ queue_name_of_key key).
Proof.
  intros H.
  destruct (H (sample_config (js "bull") (js "BULLMQ") false)
              (sample_env [js "bull:A"] never_fails)
              [js "bull:A"] (js "bull:A") eq_refl (list_elem_of_here _ _))
    as [_ Hc].
  apply Hc. vm_compute.
  do 4 apply list_elem_of_further. apply list_elem_of_here.
Qed.

Lemma toks_match_nil toks :
  toks_match toks [] = true -> Forall (fun t => t = GStar) toks.
Proof.
  induction toks as [|t toks IH]; [constructor|].
  destruct t; simpl; try discriminate.
  rewrite orb_false_r. intros H. constructor; [reflexivity|apply IH, H].
Qed.

Lemma tokens_not_all_star n cls p :
  length p <= n ->
  cls <> None \/ Exists (fun c => c <> star) p ->
  Exists (fun t => t <> GStar) (tokens cls p).
Proof.
  revert cls p. induction n as [|n IH]; intros cls p Hlen Hc.
  - destruct p; [|simpl in Hlen; lia].
    destruct cls as [[neg acc]|]; simpl.
    + apply Exists_cons_hd. discriminate.
    + destruct Hc as [Hc|Hc]; [done|]. inversion Hc.
  - destruct cls as [[neg acc]|].
    + destruct p as [|c p]; simpl; [apply Exists_cons_hd; discriminate|].
      simpl in Hlen.
      destruct (c =? backslash)%N.
      { destruct p as [|q p]; apply IH; simpl in *; try lia; left; discriminate. }
      destruct (c =? rbracket)%N; [apply Exists_cons_hd; discriminate|].
      destruct p as [|d [|hi p]]; try (apply IH; simpl in *; try lia; left; discriminate).
      destruct (d =? dash)%N; apply IH; simpl in *; try lia; left; discriminate.
    + destruct Hc as [Hc|Hc]; [done|].
      destruct p as [|c p]; [inversion Hc|]. simpl. simpl in Hlen.
      destruct (c =? star)%N eqn:Es.
      { apply Exists_cons_tl. apply IH; [lia|]. right.
        apply Exists_cons in Hc as [Hc|Hc]; [|exact Hc].
        apply N.eqb_eq in Es. done. }
      destruct (c =? qmark)%N; [apply Exists_cons_hd; discriminate|].
      destruct (c =? lbracket)%N.
      { destruct p as [|m p]; [apply IH; simpl; try lia; left; discriminate|].
        destruct (m =? caret)%N; apply IH; simpl in *; try lia; left; discriminate. }
      destruct (c =? backslash)%N; [destruct p|]; apply Exists_cons_hd; discriminate.
Qed.

(** A key that the scan returns is not empty, whatever the prefix is: the
    pattern has a [:] in it, and the empty key matches only patterns
    made of [*]. *)
Lemma scanned_key_nonempty config env keys key :
  client_keys env (keys_pattern config) = Normal keys ->
  key ∈ keys -> key <> [].
Proof.
  unfold client_keys. destruct (keys_failure env); [done|].
  intros [= <-] Hkey ->. apply list_elem_of_filter in Hkey as [Hm _].
  apply toks_match_nil in Hm.
  assert (Hex : Exists (fun t => t <> GStar)
                  (tokens None (keys_pattern config))).
  { apply (tokens_not_all_star (length (keys_pattern config))); [lia|].
    right. unfold keys_pattern. apply Exists_app. right.
    apply Exists_cons_hd. discriminate. }
  apply Exists_exists in Hex as (t & Ht & Hne).
  rewrite Forall_forall in Hm. exact (Hne (Hm t Ht)).
Qed.

(** C4, amended: every name taken from a scanned key is non-empty; for a
    key [<prefix>:<name>:<suffix>] whose prefix and name are non-empty and
    free of [:] and line terminators and whose suffix is non-empty and free
    of line terminators, the name taken is exactly [<name>], so it has no
    separator in it and every key of the queue gives the same name. *)
Theorem queue_name_normalized config env keys key :
  client_keys env (keys_pattern config) = Normal keys ->
  key ∈ keys ->
  queue_name_of_key key <> [] /\
  forall n sfx,
    segment (BULL_PREFIX config) = true ->
    segment n = true -> key_tail sfx = true ->
    key = make_key (BULL_PREFIX config) (n, sfx) ->
    queue_name_of_key key = n /\
    (colon ∉ queue_name_of_key key) /\
    forall sfx', key_tail sfx' = true ->
      queue_name_of_key (make_key (BULL_PREFIX config) (n, sfx'))
      = queue_name_of_key key.
Proof.
  intros Hkeys Hkey. split.
  - apply queue_name_of_key_nonempty.
    exact (scanned_key_nonempty config env keys key Hkeys Hkey).
  - intros n sfx Hp Hn Hs ->.
    rewrite (queue_name_of_make_key _ (n, sfx)) by done. simpl.
    split; [done|]. split; [apply segment_no_colon, Hn|].
    intros sfx' Hs'. apply (queue_name_of_make_key _ (n, sfx')); done.
Qed.

Lemma queue_name_normalized_witness :
  let config := sample_config (js "bul?") (js "BULLMQ") false in
  let env := sample_env [js "bul?:B:2"; js "bull:A:1"] never_fails in
  client_keys env (keys_pattern config)
  = Normal [js "bul?:B:2"; js "bull:A:1"] /\
  js "bul?:B:2" ∈ [js "bul?:B:2"; js "bull:A:1"] /\
  queue_name_of_key (js "bul?:B:2") <> [] /\
  forall n sfx,
    segment (BULL_PREFIX config) = true ->
    segment n = true -> key_tail sfx = true ->
    js "bul?:B:2" = make_key (BULL_PREFIX config) (n, sfx) ->
    queue_name_of_key (js "bul?:B:2") = n /\
    (colon ∉ queue_name_of_key (js "bul?:B:2")) /\
    forall sfx', key_tail sfx' = true ->
      queue_name_of_key (make_key (BULL_PREFIX config) (n, sfx'))
      = queue_name_of_key (js "bul?:B:2").
Proof.
  intros config env.
  split; [reflexivity|]. split; [apply list_elem_of_here|].
  exact (queue_name_normalized config env [js "bul?:B:2"; js "bull:A:1"]
           (js "bul?:B:2") eq_refl (list_elem_of_here _ _)).
Defined.

(** The name taken from the key [bul?:B:2] under the prefix [bul?]. *)
Example queue_name_under_pattern_prefix :
  queue_name_of_key (make_key (js "bul?") (js "B", js "2")) = js "B"
  /\ segment (js "bul?") = true.
Proof. split; reflexivity. Qed.

End scanner.

(** ** The bulk reset *)

Section bulk_reset.

Local Open Scope string_scope.
Local Open Scope list_scope.

Lemma get_property_value v k :
  nullish v = false -> get_property v k = Normal (get v k).
Proof. unfold get_property. intros ->. reflexivity. Qed.

Lemma get_property_nullish v k :
  nullish v = true -> get_property v k = Throw (TypeError_cannot_read v k).
Proof. unfold get_property. intros ->. reflexivity. Qed.

Lemma isolated_readable a : isolated a -> readable a.
Proof. intros (q & n & Hq & Hn & _). exists q, n. split; assumption. Qed.

Lemma clean_each_isolated l results :
  Forall isolated l ->
  clean_each l results = Normal (results ++ map spec_outcome l).
Proof.
  intros Hl. revert results.
  induction Hl as [|a l (q & n & Hq & Hn & Ho) _ IH]; intros results; simpl.
  - rewrite app_nil_r. reflexivity.
  - unfold spec_outcome. rewrite Hq. simpl. rewrite Hn. simpl.
    destruct (obliterate q _) as [u|err].
    + rewrite IH, <- app_assoc. reflexivity.
    + rewrite (get_property_value err _ (Ho err eq_refl)). simpl.
      rewrite IH, <- app_assoc. reflexivity.
Qed.

Lemma clean_each_app l1 l2 results :
  Forall isolated l1 ->
  clean_each (l1 ++ l2) results
  = clean_each l2 (results ++ map spec_outcome l1).
Proof.
  intros Hl. revert results.
  induction Hl as [|a l (q & n & Hq & Hn & Ho) _ IH]; intros results; simpl.
  - rewrite app_nil_r. reflexivity.
  - unfold spec_outcome. rewrite Hq. simpl. rewrite Hn. simpl.
    destruct (obliterate q _) as [u|err].
    + rewrite IH, <- app_assoc. reflexivity.
    + rewrite (get_property_value err _ (Ho err eq_refl)). simpl.
      rewrite IH, <- app_assoc. reflexivity.
Qed.

Lemma clean_each_read_throws before a after err results :
  Forall isolated before -> read_throws a err ->
  clean_each (before ++ a :: after) results = Throw err.
Proof.
  intros Hb Ha. rewrite clean_each_app by exact Hb. simpl.
  destruct Ha as [Ha|(q & Hq & Hn)].
  - rewrite Ha. reflexivity.
  - rewrite Hq. simpl. rewrite Hn. reflexivity.
Qed.

Lemma clean_each_rejects_nullish before a after err results :
  Forall isolated before -> rejects_nullish a err ->
  clean_each (before ++ a :: after) results
  = Throw (TypeError_cannot_read err "message").
Proof.
  intros Hb (q & n & Hq & Hn & Ho & Hnull).
  rewrite clean_each_app by exact Hb. simpl.
  rewrite Hq. simpl. rewrite Hn. simpl. rewrite Ho.
  rewrite (get_property_nullish err _ Hnull). reflexivity.
Qed.

Lemma spec_outcome_queue a q n :
  queue a = Normal q -> name q = Normal n ->
  get (spec_outcome a) "queue" = n.
Proof.
  intros Hq Hn. unfold spec_outcome. rewrite Hq, Hn.
  destruct (obliterate q _); reflexivity.
Qed.

(** Where no [obliterate] throws [null] or [undefined], the handler does
    what C1 says: it answers 200 with one outcome per adapter, in order,
    [{queue, status: 'success'}] when the forced [obliterate] returns and
    [{queue, status: 'error', error}] with the message when it throws. *)
Lemma bulk_reset_isolates_failures (l : list QueueAdapter) :
  Forall isolated l ->
  exists results,
    cleanAllQueuesHandler l
    = Normal {| status := 200;
                json := Obj [("success", Bool true);
                             ("results", Arr results)] |}
    /\ length results = length l
    /\ forall i a q n,
         l !! i = Some a -> queue a = Normal q -> name q = Normal n ->
         results !! i
         = Some match obliterate q (Obj [("force", Bool true)]) with
                | Normal _ =>
                    Obj [("queue", n); ("status", Str (js "success"))]
                | Throw err =>
                    Obj [("queue", n); ("status", Str (js "error"));
                         ("error", get err "message")]
                end.
Proof.
  intros Hl. exists (map spec_outcome l). split; [|split].
  - unfold cleanAllQueuesHandler. rewrite clean_each_isolated by exact Hl.
    reflexivity.
  - apply length_map.
  - intros i a q n Hi Hq Hn.
    change (map spec_outcome l) with (spec_outcome <$> l).
    rewrite list_lookup_fmap, Hi. simpl. f_equal.
    unfold spec_outcome. rewrite Hq, Hn. reflexivity.
Qed.

Lemma three_queues_isolated : Forall isolated three_queues.
Proof.
  repeat constructor; eexists _, _; (split; [reflexivity|]);
    (split; [reflexivity|]); simpl; intros err [= <-]; reflexivity.
Qed.

(** Three queues of which the second throws an [Error] with the message
    ["boom"]: three outcomes, the first and the third a success. *)
Example bulk_reset_three_queues :
  cleanAllQueuesHandler three_queues
  = Normal
      {| status := 200;
         json := Obj [("success", Bool true);
                      ("results",
                       Arr [Obj [("queue", Str (js "q1"));
                                 ("status", Str (js "success"))];
                            Obj [("queue", Str (js "q2"));
                                 ("status", Str (js "error"));
                                 ("error", Str (js "boom"))];
                            Obj [("queue", Str (js "q3"));
                                 ("status", Str (js "success"))]])] |}.
Proof. reflexivity. Qed.

(** C1 fails on the code: over three queues of which the second rejects
    its [obliterate] with [null], the inner [catch] throws when it reads
    [err.message]; the handler answers 500 with [success: false] and the
    message of that [TypeError], without any outcome, and the third queue
    is never called. *)
Theorem bulk_reset_null_rejection_aborts_batch :
  cleanAllQueuesHandler three_queues_null
  = Normal
      {| status := 500;
         json := Obj [("success", Bool false);
                      ("error",
                       Str (js "Cannot read properties of null (reading 'message')"))]
      |}
  /\ (clean_each_traced three_queues_null [] []).1
     = clean_each three_queues_null []
  /\ (clean_each_traced three_queues_null [] []).2
     = [(Str (js "q1"), force_true); (Str (js "q2"), force_true)].
Proof. repeat split. Qed.

(** C6: with an empty list, as [queueList] is until the discovery has
    finished, the handler answers 200 with [success: true] and no
    results. *)
Theorem bulk_reset_empty_registry :
  queueList initial = [] /\
  cleanAllQueuesHandler (queueList initial)
  = Normal {| status := 200;
              json := Obj [("success", Bool true); ("results", Arr [])] |}.
Proof. split; reflexivity. Qed.

(** Where the thrown value is not [null] or [undefined], the handler does
    what C10 says: when reading [queueAdapter.queue] or [queue.name]
    throws, it answers 500 with [success: false] and the message, without
    [results], whatever the queues before it did. *)
Lemma bulk_reset_aborts_on_unreadable_adapter before a after err :
  Forall isolated before -> read_throws a err -> nullish err = false ->
  cleanAllQueuesHandler (before ++ a :: after)
  = Normal {| status := 500;
              json := Obj [("success", Bool false);
                           ("error", get err "message")] |}.
Proof.
  intros Hb Ha Hnull. unfold cleanAllQueuesHandler.
  rewrite (clean_each_read_throws before a after err [] Hb Ha).
  rewrite (get_property_value err _ Hnull). reflexivity.
Qed.

Example bulk_reset_broken_adapter :
  cleanAllQueuesHandler
    (sample_adapter (js "q1") (Normal tt) :: broken_adapter boom :: [])
  = Normal {| status := 500;
              json := Obj [("success", Bool false);
                           ("error", Str (js "boom"))] |}.
Proof. reflexivity. Qed.


(** Every adapter either lets the loop go on, or stops it: by an
    [obliterate] that throws [null] or [undefined], or by a read that
    throws. *)
Lemma adapter_cases a :
  isolated a
  \/ (exists err, rejects_nullish a err)
  \/ (exists err, read_throws a err).
Proof.
  unfold isolated, rejects_nullish, read_throws.
  destruct (queue a) as [q|err] eqn:Hq; [|right; right; eauto].
  destruct (name q) as [n|err] eqn:Hn; [|right; right; eauto].
  destruct (obliterate q (Obj [("force", Bool true)])) as [u|err] eqn:Ho.
  - left. exists q, n. split; [done|]. split; [done|].
    intros err H. congruence.
  - destruct (nullish err) eqn:Hnull.
    + right. left. exists err, q, n. done.
    + left. exists q, n. split; [done|]. split; [done|].
      intros err' H. congruence.
Qed.

Lemma first_failure l :
  Forall isolated l
  \/ exists before a after err,
       l = before ++ a :: after /\ Forall isolated before /\
       (rejects_nullish a err \/ read_throws a err).
Proof.
  induction l as [|a l IH]; [left; constructor|].
  destruct (adapter_cases a) as [Ha|Ha].
  - destruct IH as [Hl|(before & b & after & err & -> & Hb & Hfail)].
    + left. constructor; assumption.
    + right. exists (a :: before), b, after, err.
      split; [reflexivity|]. split; [constructor; assumption|assumption].
  - right. destruct Ha as [[err Ha]|[err Ha]]; exists [], a, l, err;
      (split; [reflexivity|]); (split; [constructor|]); auto.
Qed.

Lemma read_throws_not_readable a err : read_throws a err -> ~ readable a.
Proof.
  intros [Hq|(q & Hq & Hn)] (q' & n & Hq' & Hn'); congruence.
Qed.

Lemma rejects_nullish_not_isolated a err :
  rejects_nullish a err -> ~ isolated a.
Proof.
  intros (q & n & Hq & Hn & Ho & Hnull) (q' & n' & Hq' & Hn' & Ho').
  assert (q' = q) by congruence. subst q'.
  rewrite (Ho' err Ho) in Hnull. discriminate Hnull.
Qed.

End bulk_reset.

(** ** The discovery at startup *)

Section discovery.

Local Open Scope string_scope.
Local Open Scope list_scope.

Lemma make_adapter_readable config env item a :
  make_adapter config env item = Normal a ->
  readable a /\ adapter_name a = Some item.
Proof.
  unfold make_adapter, new_Queue.
  destruct (strict_eq_str _ _);
    (destruct (constructor_failure env _ item); [discriminate|]);
    intros [= <-]; (split; [eexists _, _; split|]; reflexivity).
Qed.

Lemma Array_map_make_adapter config env names adapters :
  Array_map (make_adapter config env) names = Normal adapters ->
  Forall readable adapters /\ map adapter_name adapters = map Some names.
Proof.
  revert adapters. induction names as [|item names IH]; intros adapters; simpl.
  - intros [= <-]. split; [constructor|reflexivity].
  - destruct (make_adapter config env item) as [a|err] eqn:Ha; [|discriminate].
    simpl. destruct (Array_map _ names) as [l|err]; [|discriminate].
    simpl. intros [= <-].
    apply make_adapter_readable in Ha as [Hr Hn].
    destruct (IH l eq_refl) as [Hl Hnames].
    split; [constructor; assumption|]. simpl. rewrite Hn, Hnames. done.
Qed.

(** What [startup] does, by the first call that fails. *)
Lemma startup_cases config env st :
  (exists err,
     startup config env st
     = ({| queueList := queueList st;
           boardQueues := boardQueues st;
           console := console st
                      ++ [console_error (js "Error setting up queues:") err]
        |}, Normal tt))
  \/
  (exists keys adapters,
     connect env = Normal tt /\
     client_keys env (keys_pattern config) = Normal keys /\
     Array_map (make_adapter config env) (queue_names keys) = Normal adapters /\
     startup config env st
     = ({| queueList := adapters;
           boardQueues := boardQueues st ++ adapters;
           console := console st ++ [console_log (js "done!")] |}, Normal tt)).
Proof.
  unfold startup, catch, discover.
  unfold mbind, Async_bind, await, assign_queueList, read_queueList,
    setQueues, print.
  destruct (connect env) as [[]|err]; [|left; exists err; reflexivity].
  destruct (client_keys env (keys_pattern config)) as [keys|err];
    [|left; exists err; reflexivity].
  destruct (Array_map (make_adapter config env) (queue_names keys))
    as [adapters|err] eqn:Hmap; [|left; exists err; reflexivity].
  right. exists keys, adapters. simpl. auto.
Qed.

(** The promise of the startup is never rejected. *)
Lemma startup_never_rejects config env st :
  (startup config env st).2 = Normal tt.
Proof.
  destruct (startup_cases config env st)
    as [(err & ->)|(keys & adapters & _ & _ & _ & ->)]; reflexivity.
Qed.

(** C5: after the discovery at startup the adapters in [queueList] are in
    strictly ascending order of their queue names; a bulk reset over that
    list either answers 200 with one outcome per adapter whose [queue]
    fields are those names in the same order, which it does whenever no
    [obliterate] throws [null] or [undefined], or answers 500 without any
    outcome. *)
Theorem registry_sorted_and_reset_in_order config env :
  exists names,
    map adapter_name (queueList (startup config env initial).1)
    = map Some names
    /\ StronglySorted str_le names
    /\ StronglySorted str_lt names
    /\ ((Forall isolated (queueList (startup config env initial).1)
         /\ exists results,
              cleanAllQueuesHandler (queueList (startup config env initial).1)
              = Normal {| status := 200;
                          json := Obj [("success", Bool true);
                                       ("results", Arr results)] |}
              /\ map (fun r => get r "queue") results = map Str names)
        \/ (~ Forall isolated (queueList (startup config env initial).1)
            /\ exists text,
                 cleanAllQueuesHandler
                   (queueList (startup config env initial).1)
                 = Normal {| status := 500;
                             json := Obj [("success", Bool false);
                                          ("error", text)] |})).
Proof.
  destruct (startup_cases config env initial)
    as [(err & ->)|(keys & adapters & _ & _ & Hmap & ->)]; simpl.
  - exists []. split; [done|]. split; [constructor|]. split; [constructor|].
    left. split; [constructor|]. exists []. split; reflexivity.
  - apply Array_map_make_adapter in Hmap as [Hr Hn].
    exists (queue_names keys).
    split; [exact Hn|]. split; [apply queue_names_sorted|].
    split; [apply queue_names_strict|].
    destruct (first_failure adapters)
      as [Hiso|(before & a & after & err & -> & Hb & [Ha|Ha])].
    + left. split; [exact Hiso|].
      exists (map spec_outcome adapters). split.
      * unfold cleanAllQueuesHandler.
        rewrite clean_each_isolated by exact Hiso. reflexivity.
      * clear -Hr Hn. revert Hn. generalize (queue_names keys) as names.
        induction Hr as [|a l (q & n & Hq & Hname) _ IH]; intros [|m names];
          simpl; try done.
        intros [= Ha Hl]. rewrite (spec_outcome_queue a q n Hq Hname).
        unfold adapter_name in Ha. rewrite Hq, Hname in Ha.
        destruct n; try done. injection Ha as ->.
        f_equal. apply IH, Hl.
    + right. split.
      * intros Hall. apply Forall_app in Hall as [_ Hall].
        apply Forall_cons in Hall as [Hiso _].
        exact (rejects_nullish_not_isolated a err Ha Hiso).
      * eexists. unfold cleanAllQueuesHandler.
        rewrite (clean_each_rejects_nullish before a after err [] Hb Ha).
        reflexivity.
    + exfalso. apply Forall_app in Hr as [_ Hr].
      apply Forall_cons in Hr as [Hr _].
      exact (read_throws_not_readable a err Ha Hr).
Qed.

(** The registry of a store with the three keys of the specification. *)
Example registry_of_three_keys :
  map adapter_name
    (queueList (startup (sample_config (js "bull") (js "BULLMQ") false)
                  (sample_env [js "bull:B:1"; js "bull:A:2"; js "bull:A:1"]
                     never_fails) initial).1)
  = [Some (js "A"); Some (js "B")].
Proof. vm_compute. reflexivity. Qed.

(** C7: when the enumeration of the keys fails, because the connection
    or the [KEYS] call is rejected, the startup ends without a rejection,
    [queueList] is still the empty list it was declared with, the board
    has no queues, and the error has been printed. *)
Theorem discovery_failure_keeps_empty_registry config env err :
  connect env = Throw err
  \/ (connect env = Normal tt /\ keys_failure env = Some err) ->
  startup config env initial
  = ({| queueList := [];
        boardQueues := [];
        console := [console_error (js "Error setting up queues:") err] |},
     Normal tt).
Proof.
  intros H. unfold startup, catch, discover.
  unfold mbind, Async_bind, await, client_keys.
  destruct H as [Hc|[Hc Hk]]; rewrite Hc, ?Hk; reflexivity.
Qed.

Lemma discovery_failure_keeps_empty_registry_witness :
  let config := sample_config (js "bull") (js "BULLMQ") true in
  let env := unreachable_env boom in
  connect env = Normal tt /\
  keys_failure env = Some boom /\
  startup config env initial
  = ({| queueList := [];
        boardQueues := [];
        console := [console_error (js "Error setting up queues:") boom] |},
     Normal tt).
Proof.
  intros config env. split; [reflexivity|]. split; [reflexivity|].
  exact (discovery_failure_keeps_empty_registry config env boom
           (or_intror (conj eq_refl eq_refl))).
Defined.

Lemma filter_none {A} (P : A -> Prop) `{forall x, Decision (P x)} l :
  Forall (fun x => ~ P x) l -> filter P l = [].
Proof.
  induction 1 as [|x l Hx _ IH]; [reflexivity|].
  rewrite filter_cons_False by exact Hx. exact IH.
Qed.

(** C8: when no key of the store matches the pattern, the scan returns
    no name, and the startup ends without an error: [queueList] and the
    board are empty and ["done!"] has been printed. *)
Theorem empty_key_space_starts_empty config env :
  connect env = Normal tt ->
  keys_failure env = None ->
  Forall (fun key => glob_match (keys_pattern config) key <> true)
    (redis_keys env) ->
  scan config env = Normal [] /\
  startup config env initial
  = ({| queueList := [];
        boardQueues := [];
        console := [console_log (js "done!")] |}, Normal tt).
Proof.
  intros Hc Hk Hnone.
  assert (Hkeys : client_keys env (keys_pattern config) = Normal []).
  { unfold client_keys. rewrite Hk. f_equal. apply filter_none, Hnone. }
  split.
  - unfold scan. rewrite Hkeys. reflexivity.
  - unfold startup, catch, discover.
    unfold mbind, Async_bind, await. rewrite Hc, Hkeys. reflexivity.
Qed.

Lemma empty_key_space_starts_empty_witness :
  let config := sample_config (js "bull") (js "BULLMQ") false in
  let env := sample_env [] never_fails in
  scan config env = Normal [] /\
  startup config env initial
  = ({| queueList := [];
        boardQueues := [];
        console := [console_log (js "done!")] |}, Normal tt).
Proof.
  intros config env.
  apply (empty_key_space_starts_empty config env eq_refl eq_refl).
  constructor.
Defined.

(** A store that holds only keys of other namespaces is empty for the
    scan as well. *)
Example other_namespaces_start_empty :
  startup (sample_config (js "bull") (js "BULLMQ") false)
    (sample_env [js "bullmq:C:1"; js "session:42"] never_fails) initial
  = ({| queueList := [];
        boardQueues := [];
        console := [console_log (js "done!")] |}, Normal tt).
Proof. vm_compute. reflexivity. Qed.

End discovery.

(** ** The adapter factory *)

Section adapter_factory.

Local Open Scope string_scope.
Local Open Scope list_scope.

(** The connection parameters: [port], [host], [db], [tls], and
    [password] when one is configured. *)
Lemma connection_parameters config :
  let connection := get (redisConfig config) "redis" in
  get connection "port" = REDIS_PORT config /\
  get connection "host" = REDIS_HOST config /\
  get connection "db" = REDIS_DB config /\
  get connection "tls"
  = Bool (strict_eq_str (REDIS_USE_TLS config) (js "true")) /\
  has_own connection "password" = truthy (REDIS_PASSWORD config) /\
  (truthy (REDIS_PASSWORD config) = true ->
   get connection "password" = REDIS_PASSWORD config).
Proof.
  unfold redisConfig. simpl.
  destruct (truthy (REDIS_PASSWORD config)); simpl; repeat split; done.
Qed.

(** The legacy client gets [{redis: {...}}], without a prefix even when
    one is configured; the bullmq client gets [{connection: {...}}] and
    the prefix.  In neither are [host] and [port] at the top. *)
Example options_of_both_clients :
  let env := sample_env [] never_fails in
  (exists q,
     make_adapter (sample_config (js "jobs") (js "BULL") false) env (js "mail")
     = Normal (new_adapter BullAdapter q) /\
     has_own (opts q) "redis" = true /\
     has_own (opts q) "host" = false /\
     has_own (opts q) "port" = false /\
     has_own (opts q) "prefix" = false) /\
  (exists q,
     make_adapter (sample_config (js "jobs") (js "BULLMQ") false) env (js "mail")
     = Normal (new_adapter BullMQAdapter q) /\
     has_own (opts q) "connection" = true /\
     has_own (opts q) "host" = false /\
     get (opts q) "prefix" = Str (js "jobs")).
Proof.
  intros env. split; eexists; (split; [reflexivity|]); repeat split.
Qed.

(** C2, as stated, fails: with the legacy client and a configured prefix
    the options are not flat (no [host], no [port] at the top) and have
    no [prefix]. *)
Lemma adapter_options_counterexample :
  ~ (forall config env item a q,
       strict_eq_str (BULL_VERSION config) (js "BULLMQ") = false ->
       truthy (Str (BULL_PREFIX config)) = true ->
       make_adapter config env item = Normal a ->
       queue a = Normal q ->
       has_own (opts q) "host" = true /\
       has_own (opts q) "port" = true /\
       has_own (opts q) "prefix" = true).
Proof.
  intros H.
  destruct (H (sample_config (js "jobs") (js "BULL") false)
              (sample_env [] never_fails) (js "mail") _ _
              eq_refl eq_refl eq_refl eq_refl) as [Hhost _].
  vm_compute in Hhost. discriminate Hhost.
Qed.

(** C2, amended: the options of a client depend on the configuration and
    not on the queue name.  For [BULLMQ] the connection parameters are
    under the key [connection] and it is this path that adds [prefix]
    when a prefix is configured; for any other version the same
    parameters are under the key [redis].  In neither case are they at the
    top of the options. *)
Theorem adapter_options_by_version config env item :
  constructor_failure env
    (if strict_eq_str (BULL_VERSION config) (js "BULLMQ")
     then bullmq else bull) item = None ->
  exists q,
    make_adapter config env item
    = Normal (new_adapter
                (if strict_eq_str (BULL_VERSION config) (js "BULLMQ")
                 then BullMQAdapter else BullAdapter) q)
    /\ name q = Normal (Str item)
    /\ opts q
       = (if strict_eq_str (BULL_VERSION config) (js "BULLMQ")
          then bullmq_options config else redisConfig config)
    /\ (if strict_eq_str (BULL_VERSION config) (js "BULLMQ")
        then
          library q = bullmq
          /\ get (opts q) "connection" = get (redisConfig config) "redis"
          /\ has_own (opts q) "prefix" = truthy (Str (BULL_PREFIX config))
          /\ (truthy (Str (BULL_PREFIX config)) = true ->
              get (opts q) "prefix" = Str (BULL_PREFIX config))
          /\ has_own (opts q) "host" = false
          /\ has_own (opts q) "port" = false
        else
          library q = bull
          /\ get (opts q) "redis" = get (redisConfig config) "redis"
          /\ has_own (opts q) "connection" = false
          /\ has_own (opts q) "host" = false
          /\ has_own (opts q) "port" = false).
Proof.
  unfold make_adapter, new_Queue.
  destruct (strict_eq_str (BULL_VERSION config) (js "BULLMQ"));
    intros ->; eexists; (split; [reflexivity|]); simpl;
    (split; [reflexivity|]); (split; [reflexivity|]).
  - unfold bullmq_options.
    destruct (BULL_PREFIX config) as [|c prefix]; simpl; repeat split; done.
  - repeat split.
Qed.

Lemma adapter_options_by_version_witness :
  let config := sample_config (js "jobs") (js "BULLMQ") false in
  let env := sample_env [] never_fails in
  exists q,
    make_adapter config env (js "mail") = Normal (new_adapter BullMQAdapter q)
    /\ name q = Normal (Str (js "mail"))
    /\ opts q = bullmq_options config
    /\ library q = bullmq
    /\ get (opts q) "connection" = get (redisConfig config) "redis"
    /\ has_own (opts q) "prefix" = true
    /\ (true = true -> get (opts q) "prefix" = Str (js "jobs"))
    /\ has_own (opts q) "host" = false
    /\ has_own (opts q) "port" = false.
Proof.
  intros config env.
  exact (adapter_options_by_version config env (js "mail") eq_refl).
Defined.

(** The options are the same for every queue name. *)
Lemma adapter_options_same_for_all_names config env item1 item2 a1 a2 q1 q2 :
  make_adapter config env item1 = Normal a1 -> queue a1 = Normal q1 ->
  make_adapter config env item2 = Normal a2 -> queue a2 = Normal q2 ->
  opts q1 = opts q2 /\ library q1 = library q2 /\ class a1 = class a2.
Proof.
  unfold make_adapter, new_Queue.
  destruct (strict_eq_str (BULL_VERSION config) (js "BULLMQ"));
    repeat match goal with
           | |- context [constructor_failure ?e ?l ?i] =>
               destruct (constructor_failure e l i); [discriminate|]
           end;
    simpl; intros [= <-] [= <-] [= <-] [= <-]; repeat split.
Qed.

End adapter_factory.

(** ** The routes of the bulk reset *)

Section routes.

Local Open Scope string_scope.
Local Open Scope list_scope.

(** A layer of pass-through middleware hands the request on. *)
Lemma dispatch_skip ends l layers req :
  run_handlers ends (layer_handlers l) req = None ->
  dispatch ends (l :: layers) req = dispatch ends layers req.
Proof. intros H. simpl. rewrite H. destruct (layer_applies l req); done. Qed.

Lemma dispatch_skip_authRouter ends mount layers req :
  ends req = false ->
  dispatch ends (app_use mount [authRouter] :: layers) req
  = dispatch ends layers req.
Proof. intros H. apply dispatch_skip. simpl. rewrite H. done. Qed.

Lemma dispatch_post_other ends p hs layers req :
  path req <> p ->
  dispatch ends (app_post p hs :: layers) req = dispatch ends layers req.
Proof.
  intros H. simpl. rewrite (bool_decide_eq_false_2 _ H), andb_false_r. done.
Qed.

Lemma dispatch_post_clean ends p layers req :
  method req = POST -> path req = p ->
  dispatch ends (app_post p [cleanAllQueues] :: layers) req
  = Some cleanAllQueues.
Proof.
  intros Hm Hp. simpl. rewrite Hm, (bool_decide_eq_true_2 _ Hp). done.
Qed.

(** The two routes of the bulk reset, from the first one on. *)
Lemma dispatch_clean_routes ends home layers req :
  method req = POST ->
  path req = js "/api/clean-all-queues"
  \/ path req = home ++ js "/api/clean-all-queues" ->
  dispatch ends
    (app_post (home ++ js "/api/clean-all-queues") [cleanAllQueues]
     :: app_post (js "/api/clean-all-queues") [cleanAllQueues] :: layers) req
  = Some cleanAllQueues.
Proof.
  intros Hm Hp.
  destruct (decide (path req = home ++ js "/api/clean-all-queues"))
    as [Heq|Hne].
  - apply dispatch_post_clean; done.
  - rewrite dispatch_post_other by done.
    destruct Hp as [Hp|Hp]; [|done]. apply dispatch_post_clean; done.
Qed.

(** C9: for both values of [AUTH_ENABLED] the routes are the same two:
    the bulk reset under the base path and the bulk reset at
    [/api/clean-all-queues], each with the handler alone; no layer in
    front of them holds the login guard; so a POST to either path from a
    client that is not logged in ends in the handler, provided the router
    of the login page hands the request on. *)
Theorem clean_all_route_unguarded config production :
  post_routes (app config production)
  = [(HOME_PAGE config ++ js "/api/clean-all-queues", [cleanAllQueues]);
     (js "/api/clean-all-queues", [cleanAllQueues])]
  /\ (forall l m,
        l ∈ layers_before (HOME_PAGE config ++ js "/api/clean-all-queues")
              (app config production) ->
        m ∈ layer_handlers l -> is_login_guard m = false)
  /\ (forall authRouter_ends req,
        method req = POST ->
        path req = js "/api/clean-all-queues"
        \/ path req = HOME_PAGE config ++ js "/api/clean-all-queues" ->
        authRouter_ends req = false ->
        dispatch authRouter_ends (app config production) req
        = Some cleanAllQueues).
Proof.
  split; [|split].
  - unfold app. destruct production, (AUTH_ENABLED config); reflexivity.
  - intros l m Hl Hm. unfold app in Hl.
    destruct production, (AUTH_ENABLED config); cbn in Hl;
      rewrite bool_decide_eq_true_2 in Hl by reflexivity;
      apply list_elem_of_In in Hl; cbn in Hl;
      repeat (destruct Hl as [<-|Hl];
              [apply list_elem_of_In in Hm; cbn in Hm;
               destruct Hm as [<-|[]]; reflexivity|]);
      destruct Hl.
  - intros ends req Hm Hp Hauth. unfold app.
    destruct production, (AUTH_ENABLED config);
      cbn [Datatypes.app];
      repeat (rewrite dispatch_skip by reflexivity);
      rewrite ?(dispatch_skip_authRouter _ _ _ _ Hauth);
      apply dispatch_clean_routes; done.
Qed.

Lemma clean_all_route_unguarded_witness :
  let config := sample_config (js "bull") (js "BULLMQ") true in
  let req := {| method := POST;
                path := js "/api/clean-all-queues";
                loggedIn := false |} in
  post_routes (app config false)
  = [(js "/board/api/clean-all-queues", [cleanAllQueues]);
     (js "/api/clean-all-queues", [cleanAllQueues])]
  /\ dispatch (fun _ => false) (app config false) req = Some cleanAllQueues.
Proof.
  intros config req.
  destruct (clean_all_route_unguarded config false) as (Hroutes & _ & Hreach).
  split; [exact Hroutes|].
  apply (Hreach (fun _ => false) req eq_refl); [left|]; reflexivity.
Defined.

(** The board itself is behind the login guard when it is enabled: the
    same client is stopped there. *)
Example board_is_guarded :
  dispatch (fun _ => false)
    (app (sample_config (js "bull") (js "BULLMQ") true) false)
    {| method := GET; path := js "/board"; loggedIn := false |}
  = Some (ensureLoggedIn (js "/board/login")).
Proof. vm_compute. reflexivity. Qed.

End routes.

(** * Further properties of the file *)

(** ** The names of a scan do not depend on the order of the reply *)

Section scan_order.

Local Open Scope string_scope.
Local Open Scope list_scope.

Lemma queue_names_same_elements keys keys' :
  (forall key, key ∈ keys <-> key ∈ keys') ->
  queue_names keys = queue_names keys'.
Proof.
  intros Hsame. unfold queue_names, Array_from.
  apply Array_sort_unique; [|apply Array_sort_sorted].
  unfold Array_sort. rewrite merge_sort_Permutation.
  apply NoDup_Permutation; [apply Set_new_NoDup ..|].
  intros x. rewrite !Set_new_elem, !list_elem_of_fmap.
  split; intros (key & -> & Hkey); exists key; (split; [done|]);
    apply Hsame, Hkey.
Qed.

(** X1: the names found by a scan depend on which keys the store holds,
    not on the order in which [KEYS] lists them nor on how often a key is
    listed. *)
Theorem scan_order_independent config env env' :
  keys_failure env = keys_failure env' ->
  (forall key, key ∈ redis_keys env <-> key ∈ redis_keys env') ->
  scan config env = scan config env'.
Proof.
  intros Hf Hsame. unfold scan, client_keys. rewrite <- Hf.
  destruct (keys_failure env); [reflexivity|]. simpl. f_equal.
  apply queue_names_same_elements. intros key.
  rewrite !list_elem_of_filter, Hsame. reflexivity.
Qed.

Lemma scan_order_independent_witness :
  let config := sample_config (js "bull") (js "BULLMQ") false in
  let env := sample_env [js "bull:B:1"; js "bull:A:2"; js "bull:A:1"]
               never_fails in
  let env' := sample_env [js "bull:A:1"; js "bull:B:1"; js "bull:A:1";
                          js "bull:A:2"] never_fails in
  scan config env = scan config env'.
Proof.
  intros config env env'.
  apply (scan_order_independent config env env'); [reflexivity|].
  intros key. rewrite !list_elem_of_In. simpl. tauto.
Defined.

End scan_order.

(** ** What the pattern does with every key *)

Section key_shapes.

Local Open Scope string_scope.
Local Open Scope list_scope.

Lemma lazy_plus_first {R} atom i s k (r : R) :
  lazy_plus atom i s k = Some r ->
  exists n, 0 < n <= length s /\ forallb atom (take n s) = true
            /\ k (i + n) (drop n s) = Some r
            /\ forall m, 0 < m < n -> k (i + m) (drop m s) = None.
Proof.
  revert i. induction s as [|c s IH]; intros i; simpl; [discriminate|].
  destruct (atom c) eqn:Hc; [|discriminate].
  destruct (k (S i) s) as [r'|] eqn:Hk.
  - intros [= <-]. exists 1. simpl. rewrite Hc, ?take_0, ?drop_0. simpl.
    replace (i + 1) with (S i) by lia.
    split; [lia|]. split; [done|]. split; [done|]. intros m Hm. lia.
  - intros H. apply IH in H as (n & Hn & Hall & Hkn & Hmin).
    exists (S n). simpl. rewrite Hc, Hall.
    replace (i + S n) with (S i + n) by lia.
    split; [lia|]. split; [done|]. split; [done|].
    intros [|m] Hm; [lia|]. destruct m as [|m].
    + simpl. rewrite drop_0. replace (i + 1) with (S i) by lia. exact Hk.
    + simpl. replace (i + S (S m)) with (S i + S m) by lia.
      apply Hmin. lia.
Qed.

Lemma dot_colon : dot colon = true.
Proof. reflexivity. Qed.

(** Whenever the pattern matches: the key is [p:n:sfx] with three
    non-empty parts, no line terminator anywhere, capture [n], and no
    [:] in [n] after its first character. *)
Lemma exec_key_regex_shape s i j cap :
  exec key_regex s = Some (i, j, cap) ->
  exists p n sfx,
    cap = Some n /\ s = p ++ [colon] ++ n ++ [colon] ++ sfx /\
    p <> [] /\ n <> [] /\ sfx <> [] /\
    forallb dot s = true /\ colon ∉ drop 1 n.
Proof.
  unfold exec. intros H.
  assert (Hm : matcher key_regex 0 s None (fun j _ cap => Some (0, j, cap))
               = Some (i, j, cap)).
  { rewrite exec_from_unfold in H.
    destruct (matcher key_regex 0 s None _) as [m|] eqn:E; [exact H|].
    destruct s as [|c s]; [done|].
    rewrite exec_from_key_regex_later in H; done. }
  clear H. cbn [key_regex matcher Nat.eqb] in Hm.
  apply lazy_plus_sound in Hm as (a & Ha & Hda & Hm).
  destruct (drop a s) as [|x r1] eqn:E1; [done|].
  destruct (x =? colon)%N eqn:Hx; [|done]. apply N.eqb_eq in Hx. subst x.
  apply lazy_plus_first in Hm as (b & Hb & Hdb & Hm & Hmin).
  destruct (drop b r1) as [|y r2] eqn:E2; [done|].
  destruct (y =? colon)%N eqn:Hy; [|done]. apply N.eqb_eq in Hy. subst y.
  apply lazy_plus_sound in Hm as (c & Hc & Hdc & Hm).
  destruct (drop c r2) as [|z r3] eqn:E3; [|done].
  injection Hm as <- <- <-.
  assert (Hc' : c = length r2).
  { apply (f_equal length) in E3. rewrite length_drop in E3. simpl in E3. lia. }
  subst c. rewrite firstn_all in Hdc.
  assert (Hr1 : r1 = take b r1 ++ [colon] ++ r2).
  { rewrite <- (take_drop b r1) at 1. rewrite E2. done. }
  assert (Hs : s = take a s ++ [colon] ++ take b r1 ++ [colon] ++ r2).
  { rewrite <- (take_drop a s) at 1. rewrite E1.
    rewrite Hr1 at 1. done. }
  assert (Hlen1 : length r1 <= length s).
  { apply (f_equal length) in E1. rewrite length_drop in E1.
    simpl in E1. lia. }
  exists (take a s), (take b r1), r2.
  replace (a + b - a) with b by lia.
  split; [done|]. split; [exact Hs|].
  split. { intros E. apply (f_equal length) in E. rewrite length_take in E.
           simpl in E. lia. }
  split. { intros E. apply (f_equal length) in E. rewrite length_take in E.
           simpl in E. lia. }
  split. { intros ->. simpl in Hc. lia. }
  split.
  { rewrite Hs, !forallb_app, Hda, Hdb, Hdc. reflexivity. }
  intros Hin. apply list_elem_of_lookup in Hin as [m Hlook].
  rewrite lookup_drop in Hlook. simpl in Hlook.
  assert (Hmb : S m < b).
  { apply lookup_lt_Some in Hlook. rewrite length_take in Hlook. lia. }
  rewrite lookup_take_lt in Hlook by lia.
  specialize (Hmin (S m) ltac:(lia)).
  rewrite (drop_S _ _ _ Hlook) in Hmin. rewrite N.eqb_refl in Hmin.
  assert (Hrest : drop (S (S m)) r1
                  = drop (S (S m)) (take b r1) ++ [colon] ++ r2).
  { rewrite Hr1 at 1. rewrite drop_app_le; [done|].
    rewrite length_take. lia. }
  assert (Hdots : forallb dot (drop (S (S m)) r1) = true).
  { rewrite Hrest, !forallb_app, Hdc. simpl.
    rewrite andb_true_r. apply forallb_forall. intros u Hu.
    rewrite forallb_forall in Hdb. apply Hdb.
    apply list_elem_of_In. apply list_elem_of_In in Hu.
    rewrite <- (take_drop (S (S m)) (take b r1)), elem_of_app. auto. }
  assert (Hne : drop (S (S m)) r1 <> []).
  { rewrite Hrest. destruct (drop (S (S m)) (take b r1)); done. }
  rewrite <- (app_nil_r (drop (S (S m)) r1)) in Hmin.
  erewrite lazy_plus_skip in Hmin; [discriminate Hmin|exact Hne|exact Hdots| |].
  - intros u Hu.
    destruct (drop_inside (drop (S (S m)) r1) u Hu) as (w & tl & -> & _).
    reflexivity.
  - reflexivity.
Qed.

(** X2: a key is either taken as the name as it is, or it has the form
    [p:n:sfx] with three non-empty parts and the name is [n], which has no
    [:] after its first character; the name is never longer than the
    key. *)
Theorem queue_name_of_key_cases key :
  (queue_name_of_key key = key
   \/ exists p n sfx,
        key = p ++ [colon] ++ n ++ [colon] ++ sfx /\
        p <> [] /\ n <> [] /\ sfx <> [] /\
        queue_name_of_key key = n /\ colon ∉ drop 1 n)
  /\ length (queue_name_of_key key) <= length key.
Proof.
  unfold queue_name_of_key, replace_with_group1.
  destruct (exec key_regex key) as [[[i j] cap]|] eqn:E; [|split; [left|]; done].
  destruct (exec_key_regex_sound _ _ _ _ E) as (-> & -> & _).
  apply exec_key_regex_shape in E
    as (p & n & sfx & -> & Hkey & Hp & Hn & Hs & _ & Hc).
  rewrite take_0, drop_all. simpl. rewrite app_nil_r. split.
  - right. exists p, n, sfx. done.
  - rewrite Hkey, !length_app. lia.
Qed.

(** X3: a key that contains a line terminator is taken as the name as it
    is, whatever its segments are. *)
Theorem queue_name_of_key_line_terminator key :
  existsb is_line_terminator key = true ->
  queue_name_of_key key = key.
Proof.
  intros Hlt. unfold queue_name_of_key, replace_with_group1.
  destruct (exec key_regex key) as [[[i j] cap]|] eqn:E; [|done].
  apply exec_key_regex_shape in E as (p & n & sfx & _ & _ & _ & _ & _ & Hd & _).
  apply existsb_exists in Hlt as (c & Hc & Hl).
  rewrite forallb_forall in Hd. specialize (Hd c Hc).
  unfold dot in Hd. rewrite Hl in Hd. discriminate Hd.
Qed.

Lemma queue_name_of_key_line_terminator_witness :
  queue_name_of_key (js "bull:A:1" ++ [13%N; 10%N])
  = js "bull:A:1" ++ [13%N; 10%N].
Proof.
  apply (queue_name_of_key_line_terminator (js "bull:A:1" ++ [13%N; 10%N])).
  reflexivity.
Defined.

(** X4: a key with fewer than two [:] is taken as the name as it is. *)
Theorem queue_name_of_key_few_colons key :
  count_occ N.eq_dec key colon < 2 ->
  queue_name_of_key key = key.
Proof.
  intros Hcount. unfold queue_name_of_key, replace_with_group1.
  destruct (exec key_regex key) as [[[i j] cap]|] eqn:E; [|done].
  apply exec_key_regex_shape in E as (p & n & sfx & _ & -> & _).
  rewrite !count_occ_app in Hcount. simpl in Hcount. lia.
Qed.

Lemma queue_name_of_key_few_colons_witness :
  queue_name_of_key (js "bull:stalled-check") = js "bull:stalled-check".
Proof.
  apply (queue_name_of_key_few_colons (js "bull:stalled-check")).
  vm_compute. lia.
Defined.

End key_shapes.

(** ** More on the discovery at startup *)

Section startup_more.

Local Open Scope string_scope.
Local Open Scope list_scope.

Lemma make_adapter_throws config env item err :
  constructor_failure env (version_library config) item = Some err ->
  make_adapter config env item = Throw err.
Proof.
  unfold make_adapter, new_Queue, version_library.
  destruct (strict_eq_str _ _); intros ->; reflexivity.
Qed.

Lemma make_adapter_builds config env item :
  constructor_failure env (version_library config) item = None ->
  make_adapter config env item = Normal (built_adapter config env item).
Proof.
  unfold make_adapter, new_Queue, built_adapter, version_library,
    version_class, version_options.
  destruct (strict_eq_str _ _); intros ->; reflexivity.
Qed.

Lemma Array_map_throws {A B} (f : A -> completion B) l x err :
  x ∈ l -> f x = Throw err -> exists err', Array_map f l = Throw err'.
Proof.
  induction l as [|y l IH]; intros Hin Hx; [by apply elem_of_nil in Hin|].
  simpl. destruct (f y) as [b|e] eqn:Hy; [|eauto]. simpl.
  apply elem_of_cons in Hin as [->|Hin]; [congruence|].
  destruct (IH Hin Hx) as [err' ->]. simpl. eauto.
Qed.

Lemma Array_map_all {A B} (f : A -> completion B) (g : A -> B) l :
  (forall x, x ∈ l -> f x = Normal (g x)) ->
  Array_map f l = Normal (map g l).
Proof.
  induction l as [|y l IH]; intros H; [reflexivity|]. simpl.
  rewrite (H y (list_elem_of_here _ _)). simpl.
  rewrite IH; [reflexivity|]. intros x Hx. apply H, list_elem_of_further, Hx.
Qed.

(** X5: whatever the store and the clients answer, the startup ends
    without a rejection, prints exactly one line, and leaves the board
    with exactly the adapters that [queueList] holds. *)
Theorem startup_board_shows_registry config env :
  (startup config env initial).2 = Normal tt
  /\ boardQueues (startup config env initial).1
     = queueList (startup config env initial).1
  /\ length (console (startup config env initial).1) = 1.
Proof.
  destruct (startup_cases config env initial)
    as [(err & ->)|(keys & adapters & _ & _ & _ & ->)]; simpl; done.
Qed.

(** X6: when the constructor of one queue client throws, no queue at all
    is registered: [queueList] and the board stay empty and one error is
    printed, although the other names were found as well. *)
Theorem startup_constructor_failure_registers_nothing
    config env names item err :
  connect env = Normal tt ->
  scan config env = Normal names ->
  item ∈ names ->
  constructor_failure env (version_library config) item = Some err ->
  exists err',
    startup config env initial
    = ({| queueList := [];
          boardQueues := [];
          console := [console_error (js "Error setting up queues:") err'] |},
       Normal tt).
Proof.
  intros Hc Hscan Hin Hfail. unfold scan in Hscan.
  destruct (client_keys env (keys_pattern config)) as [keys|e] eqn:Hkeys;
    [|discriminate]. injection Hscan as <-.
  destruct (Array_map_throws (make_adapter config env) _ item err Hin
              (make_adapter_throws config env item err Hfail)) as [err' Hmap].
  exists err'. unfold startup, catch, discover.
  unfold mbind, Async_bind, await. rewrite Hc, Hkeys, Hmap. reflexivity.
Qed.

Lemma startup_constructor_failure_registers_nothing_witness :
  let config := sample_config (js "bull") (js "BULLMQ") false in
  let env :=
    {| connect := Normal tt;
       redis_keys := three_keys (js "bull");
       keys_failure := None;
       constructor_failure := fun _ item =>
         if bool_decide (item = js "B") then Some boom else None;
       obliterate_result := fun _ _ _ => Normal tt |} in
  exists err',
    startup config env initial
    = ({| queueList := [];
          boardQueues := [];
          console := [console_error (js "Error setting up queues:") err'] |},
       Normal tt).
Proof.
  intros config env.
  apply (startup_constructor_failure_registers_nothing
           config env [js "A"; js "B"] (js "B") boom);
    [reflexivity|reflexivity| |reflexivity].
  apply list_elem_of_further, list_elem_of_here.
Defined.

(** X7: when the connection, the [KEYS] call and every constructor
    succeed, [queueList] holds one adapter for each name of the scan, in
    the order of the scan, all of the adapter class and client of the
    configured version, with the same options, and [done!] is printed. *)
Theorem startup_registers_scanned_names config env names :
  connect env = Normal tt ->
  scan config env = Normal names ->
  (forall item, item ∈ names ->
     constructor_failure env (version_library config) item = None) ->
  exists adapters,
    startup config env initial
    = ({| queueList := adapters;
          boardQueues := adapters;
          console := [console_log (js "done!")] |}, Normal tt)
    /\ map adapter_name adapters = map Some names
    /\ Forall (fun a =>
         class a = version_class config /\
         exists q, queue a = Normal q
                   /\ library q = version_library config
                   /\ opts q = version_options config) adapters.
Proof.
  intros Hc Hscan Hok. unfold scan in Hscan.
  destruct (client_keys env (keys_pattern config)) as [keys|e] eqn:Hkeys;
    [|discriminate]. injection Hscan as <-.
  exists (map (built_adapter config env) (queue_names keys)).
  split; [|split].
  - unfold startup, catch, discover.
    unfold mbind, Async_bind, await. rewrite Hc, Hkeys.
    rewrite (Array_map_all (make_adapter config env)
               (built_adapter config env) (queue_names keys)
               (fun item H => make_adapter_builds config env item (Hok item H))).
    reflexivity.
  - rewrite map_map. reflexivity.
  - apply Forall_forall. intros a Ha. apply list_elem_of_In in Ha.
    apply in_map_iff in Ha as (item & <- & _).
    split; [reflexivity|]. eexists. repeat split.
Qed.

Lemma startup_registers_scanned_names_witness :
  let config := sample_config (js "bull") (js "BULL") false in
  let env := sample_env (three_keys (js "bull")) never_fails in
  exists adapters,
    startup config env initial
    = ({| queueList := adapters;
          boardQueues := adapters;
          console := [console_log (js "done!")] |}, Normal tt)
    /\ map adapter_name adapters = map Some [js "A"; js "B"]
    /\ Forall (fun a =>
         class a = version_class config /\
         exists q, queue a = Normal q
                   /\ library q = version_library config
                   /\ opts q = version_options config) adapters.
Proof.
  intros config env.
  apply (startup_registers_scanned_names config env [js "A"; js "B"]);
    [reflexivity|reflexivity|]. intros item _. reflexivity.
Defined.

End startup_more.

(** ** More on the bulk reset *)

Section bulk_reset_more.

Local Open Scope string_scope.
Local Open Scope list_scope.

(** X8: the handler answers 200 with [success: true] and one outcome per
    adapter exactly when every adapter can be read and no [obliterate]
    throws [null] or [undefined].  Otherwise the loop stops at the first
    adapter that fails in one of these ways: the answer is 500 with
    [success: false] and a message, or, when a read threw [null] or
    [undefined], there is no answer at all. *)
Theorem bulk_reset_status l :
  (Forall isolated l /\
   exists results,
     cleanAllQueuesHandler l
     = Normal {| status := 200;
                 json := Obj [("success", Bool true);
                              ("results", Arr results)] |}
     /\ length results = length l)
  \/
  (~ Forall isolated l /\
   exists before a after err,
     l = before ++ a :: after /\ Forall isolated before /\
     ((rejects_nullish a err /\
       cleanAllQueuesHandler l
       = Normal {| status := 500;
                   json := Obj [("success", Bool false);
                                ("error",
                                 get (TypeError_cannot_read err "message")
                                   "message")] |})
      \/ (read_throws a err /\ nullish err = false /\
          cleanAllQueuesHandler l
          = Normal {| status := 500;
                      json := Obj [("success", Bool false);
                                   ("error", get err "message")] |})
      \/ (read_throws a err /\ nullish err = true /\
          cleanAllQueuesHandler l
          = Throw (TypeError_cannot_read err "message")))).
Proof.
  destruct (first_failure l)
    as [Hl|(before & a & after & err & -> & Hb & Ha)].
  - left. split; [exact Hl|]. exists (map spec_outcome l). split.
    + unfold cleanAllQueuesHandler. rewrite clean_each_isolated by exact Hl.
      reflexivity.
    + apply length_map.
  - right. split.
    + intros Hall. apply Forall_app in Hall as [_ Hall].
      apply Forall_cons in Hall as [Hiso _]. destruct Ha as [Ha|Ha].
      * exact (rejects_nullish_not_isolated a err Ha Hiso).
      * exact (read_throws_not_readable a err Ha (isolated_readable a Hiso)).
    + exists before, a, after, err. split; [reflexivity|]. split; [exact Hb|].
      unfold cleanAllQueuesHandler. destruct Ha as [Ha|Ha].
      * left. split; [exact Ha|].
        rewrite (clean_each_rejects_nullish before a after err [] Hb Ha).
        reflexivity.
      * right. rewrite (clean_each_read_throws before a after err [] Hb Ha).
        destruct (nullish err) eqn:Hnull; [right|left];
          (split; [exact Ha|]); (split; [reflexivity|]).
        -- rewrite (get_property_nullish err _ Hnull). reflexivity.
        -- rewrite (get_property_value err _ Hnull). reflexivity.
Qed.

Lemma clean_each_traced_result l results calls :
  (clean_each_traced l results calls).1 = clean_each l results.
Proof.
  revert results calls. induction l as [|a l IH]; intros results calls; simpl.
  - reflexivity.
  - destruct (queue a) as [q|err]; simpl; [|reflexivity].
    destruct (name q) as [n|err]; simpl; [|reflexivity].
    destruct (obliterate q _) as [u|err]; [apply IH|].
    destruct (get_property err "message") as [m|err']; simpl;
      [apply IH|reflexivity].
Qed.

Lemma queue_name_readable a q n :
  queue a = Normal q -> name q = Normal n -> queue_name a = Some n.
Proof. unfold queue_name. intros -> ->. reflexivity. Qed.

Lemma expected_calls_cons a l n :
  queue_name a = Some n ->
  expected_calls (a :: l) = (n, force_true) :: expected_calls l.
Proof. unfold expected_calls. simpl. intros ->. reflexivity. Qed.

Lemma clean_each_traced_app l1 l2 results calls :
  Forall isolated l1 ->
  clean_each_traced (l1 ++ l2) results calls
  = clean_each_traced l2 (results ++ map spec_outcome l1)
      (calls ++ expected_calls l1).
Proof.
  intros Hl. revert results calls.
  induction Hl as [|a l (q & n & Hq & Hn & Ho) _ IH]; intros results calls.
  - simpl. rewrite !app_nil_r. reflexivity.
  - rewrite (expected_calls_cons a l n (queue_name_readable a q n Hq Hn)).
    cbn [Datatypes.app clean_each_traced map].
    unfold spec_outcome. rewrite Hq, Hn.
    destruct (obliterate q _) as [u|err].
    + rewrite IH, <- !app_assoc. reflexivity.
    + rewrite (get_property_value err _ (Ho err eq_refl)).
      rewrite IH, <- !app_assoc. reflexivity.
Qed.

Lemma expected_calls_isolated l :
  Forall isolated l ->
  length (expected_calls l) = length l
  /\ map (fun call => Some call.1) (expected_calls l) = map queue_name l
  /\ Forall (fun call => call.2 = force_true) (expected_calls l).
Proof.
  induction 1 as [|a l (q & n & Hq & Hn & _) _ (IH1 & IH2 & IH3)];
    [repeat split; constructor|].
  pose proof (queue_name_readable a q n Hq Hn) as Hname.
  rewrite (expected_calls_cons a l n Hname). simpl.
  rewrite IH1, IH2, Hname. repeat split. constructor; [reflexivity|exact IH3].
Qed.

(** X9: when a read of an adapter throws, and no adapter in front of it
    fails to be read or has an [obliterate] that throws [null] or
    [undefined], the handler has called [obliterate({force: true})] once
    on every queue in front of that adapter, in list order, and on none
    behind it, although no outcome is sent. *)
Theorem bulk_reset_calls_before_abort before a after err :
  Forall isolated before -> read_throws a err ->
  (clean_each_traced (before ++ a :: after) [] []).1
  = clean_each (before ++ a :: after) []
  /\ (clean_each_traced (before ++ a :: after) [] []).1 = Throw err
  /\ (clean_each_traced (before ++ a :: after) [] []).2
     = expected_calls before
  /\ length (expected_calls before) = length before
  /\ map (fun call => Some call.1) (expected_calls before)
     = map queue_name before
  /\ Forall (fun call => call.2 = force_true) (expected_calls before).
Proof.
  intros Hb Ha.
  split; [apply clean_each_traced_result|].
  rewrite clean_each_traced_app by exact Hb.
  assert (Hstop : forall results calls,
            clean_each_traced (a :: after) results calls
            = (Throw err, calls)).
  { intros results calls. simpl. destruct Ha as [Hq|(q & Hq & Hn)].
    - rewrite Hq. reflexivity.
    - rewrite Hq, Hn. reflexivity. }
  rewrite Hstop. simpl. split; [reflexivity|]. split; [reflexivity|].
  apply expected_calls_isolated, Hb.
Qed.

Lemma bulk_reset_calls_before_abort_witness :
  let before := [sample_adapter (js "q1") (Normal tt);
                 sample_adapter (js "q2") (Throw boom)] in
  let after := [sample_adapter (js "q4") (Normal tt)] in
  (clean_each_traced (before ++ broken_adapter boom :: after) [] []).1
  = Throw boom
  /\ (clean_each_traced (before ++ broken_adapter boom :: after) [] []).2
     = [(Str (js "q1"), force_true); (Str (js "q2"), force_true)].
Proof.
  intros before after.
  assert (Hb : Forall isolated before).
  { repeat constructor; eexists _, _; (split; [reflexivity|]);
      (split; [reflexivity|]); simpl; intros err H; try discriminate H.
    injection H as <-. reflexivity. }
  destruct (bulk_reset_calls_before_abort before (broken_adapter boom) after
              boom Hb (or_introl eq_refl)) as (_ & H1 & H2 & _).
  split; [exact H1|exact H2].
Defined.

(** X10: over adapters that can all be read and of which no [obliterate]
    throws [null] or [undefined], [obliterate({force: true})] is called
    exactly once per adapter, in the order of the list, also after a call
    that threw. *)
Theorem bulk_reset_calls_every_queue l :
  Forall isolated l ->
  (clean_each_traced l [] []).1 = clean_each l []
  /\ length (clean_each_traced l [] []).2 = length l
  /\ map (fun call => Some call.1) (clean_each_traced l [] []).2
     = map queue_name l
  /\ Forall (fun call => call.2 = force_true) (clean_each_traced l [] []).2.
Proof.
  intros Hl. split; [apply clean_each_traced_result|].
  rewrite <- (app_nil_r l) at 1 3 5.
  rewrite clean_each_traced_app by exact Hl. simpl.
  apply expected_calls_isolated, Hl.
Qed.

Lemma bulk_reset_calls_every_queue_witness :
  (clean_each_traced three_queues [] []).2
  = [(Str (js "q1"), force_true); (Str (js "q2"), force_true);
     (Str (js "q3"), force_true)]
  /\ length (clean_each_traced three_queues [] []).2 = length three_queues.
Proof.
  destruct (bulk_reset_calls_every_queue three_queues three_queues_isolated)
    as (_ & Hlen & _ & _).
  split; [reflexivity|exact Hlen].
Defined.

(** X11: [success: true] says that the loop ran, not that a queue was
    cleaned: when every adapter can be read and every [obliterate] throws
    a value other than [null] and [undefined], the answer is 200 with
    [success: true], and every outcome has the status [error]. *)
Theorem bulk_reset_success_with_all_failed l :
  Forall (fun a => exists q n err,
            queue a = Normal q /\ name q = Normal n /\
            obliterate q (Obj [("force", Bool true)]) = Throw err /\
            nullish err = false) l ->
  exists results,
    cleanAllQueuesHandler l
    = Normal {| status := 200;
                json := Obj [("success", Bool true);
                             ("results", Arr results)] |}
    /\ length results = length l
    /\ Forall (fun r => get r "status" = Str (js "error")) results.
Proof.
  intros Hl. exists (map spec_outcome l). split; [|split].
  - unfold cleanAllQueuesHandler. rewrite clean_each_isolated; [reflexivity|].
    apply (Forall_impl _ _ _ Hl).
    intros a (q & n & err & Hq & Hn & Ho & Hnull).
    exists q, n. split; [exact Hq|]. split; [exact Hn|].
    intros err' H. congruence.
  - apply length_map.
  - apply Forall_forall. intros r Hr. apply list_elem_of_In in Hr.
    apply in_map_iff in Hr as (a & <- & Ha).
    rewrite Forall_forall in Hl. apply list_elem_of_In in Ha.
    destruct (Hl a Ha) as (q & n & err & Hq & Hn & Ho & _).
    unfold spec_outcome. rewrite Hq, Hn, Ho. reflexivity.
Qed.

Lemma bulk_reset_success_with_all_failed_witness :
  exists results,
    cleanAllQueuesHandler [sample_adapter (js "q1") (Throw boom);
                           sample_adapter (js "q2") (Throw boom)]
    = Normal {| status := 200;
                json := Obj [("success", Bool true);
                             ("results", Arr results)] |}
    /\ length results = 2
    /\ Forall (fun r => get r "status" = Str (js "error")) results.
Proof.
  apply (bulk_reset_success_with_all_failed
           [sample_adapter (js "q1") (Throw boom);
            sample_adapter (js "q2") (Throw boom)]).
  repeat constructor; eexists _, _, _; repeat split.
Defined.

(** X18: when the [obliterate] of an adapter throws [null] or
    [undefined], and no adapter in front of it fails, the handler answers
    500 with [success: false] and the message of the [TypeError], without
    results; [obliterate] has been called on that adapter and on those in
    front of it, and on none behind it. *)
Theorem bulk_reset_nullish_rejection_aborts before a after err :
  Forall isolated before -> rejects_nullish a err ->
  cleanAllQueuesHandler (before ++ a :: after)
  = Normal {| status := 500;
              json := Obj [("success", Bool false);
                           ("error",
                            get (TypeError_cannot_read err "message")
                              "message")] |}
  /\ (clean_each_traced (before ++ a :: after) [] []).1
     = clean_each (before ++ a :: after) []
  /\ (clean_each_traced (before ++ a :: after) [] []).2
     = expected_calls (before ++ [a])
  /\ length (expected_calls (before ++ [a])) = S (length before).
Proof.
  intros Hb Ha. split; [|split; [apply clean_each_traced_result|]].
  - unfold cleanAllQueuesHandler.
    rewrite (clean_each_rejects_nullish before a after err [] Hb Ha).
    reflexivity.
  - rewrite clean_each_traced_app by exact Hb.
    destruct Ha as (q & n & Hq & Hn & Ho & Hnull).
    assert (Hcalls : expected_calls (before ++ [a])
                     = expected_calls before ++ [(n, force_true)]).
    { unfold expected_calls. rewrite omap_app. simpl.
      unfold queue_name. rewrite Hq, Hn. reflexivity. }
    rewrite Hcalls. simpl. rewrite Hq, Hn, Ho.
    rewrite (get_property_nullish err _ Hnull). simpl.
    split; [reflexivity|]. rewrite length_app. simpl.
    destruct (expected_calls_isolated before Hb) as [-> _]. lia.
Qed.

Lemma bulk_reset_nullish_rejection_aborts_witness :
  let before := [sample_adapter (js "q1") (Normal tt)] in
  let a := sample_adapter (js "q2") (Throw Undefined) in
  let after := [sample_adapter (js "q3") (Normal tt)] in
  cleanAllQueuesHandler (before ++ a :: after)
  = Normal {| status := 500;
              json := Obj [("success", Bool false);
                           ("error",
                            Str (js "Cannot read properties of undefined (reading 'message')"))]
           |}
  /\ (clean_each_traced (before ++ a :: after) [] []).2
     = [(Str (js "q1"), force_true); (Str (js "q2"), force_true)].
Proof.
  intros before a after.
  assert (Hb : Forall isolated before).
  { repeat constructor; eexists _, _; (split; [reflexivity|]);
      (split; [reflexivity|]); simpl; intros err H; discriminate H. }
  assert (Ha : rejects_nullish a Undefined).
  { eexists _, _. repeat split. }
  destruct (bulk_reset_nullish_rejection_aborts before a after Undefined
              Hb Ha) as (H1 & _ & H2 & _).
  split; [exact H1|exact H2].
Defined.

End bulk_reset_more.

(** ** Startup and bulk reset together *)

Section startup_then_reset.

Local Open Scope string_scope.
Local Open Scope list_scope.

Lemma startup_all_built config env names :
  connect env = Normal tt ->
  scan config env = Normal names ->
  (forall item, item ∈ names ->
     constructor_failure env (version_library config) item = None) ->
  (startup config env initial).1
  = {| queueList := map (built_adapter config env) names;
       boardQueues := map (built_adapter config env) names;
       console := [console_log (js "done!")] |}.
Proof.
  intros Hc Hscan Hok. unfold scan in Hscan.
  destruct (client_keys env (keys_pattern config)) as [keys|e] eqn:Hkeys;
    [|discriminate]. injection Hscan as <-.
  unfold startup, catch, discover.
  unfold mbind, Async_bind, await. rewrite Hc, Hkeys.
  rewrite (Array_map_all (make_adapter config env)
             (built_adapter config env) (queue_names keys)
             (fun item H => make_adapter_builds config env item (Hok item H))).
  reflexivity.
Qed.

Lemma built_adapters_isolated config env names :
  (forall item err,
     item ∈ names ->
     obliterate_result env (version_library config) item
       (Obj [("force", Bool true)]) = Throw err ->
     nullish err = false) ->
  Forall isolated (map (built_adapter config env) names).
Proof.
  intros Hok. apply Forall_forall. intros a Ha. apply list_elem_of_In in Ha.
  apply in_map_iff in Ha as (item & <- & Hitem).
  eexists _, _. split; [reflexivity|]. split; [reflexivity|].
  simpl. intros err. apply Hok. apply list_elem_of_In, Hitem.
Qed.

Lemma expected_calls_built config env names :
  expected_calls (map (built_adapter config env) names)
  = map (fun n => (Str n, force_true)) names.
Proof.
  induction names as [|n names IH]; [reflexivity|]. cbn [map].
  rewrite (expected_calls_cons (built_adapter config env n) _ (Str n) eq_refl).
  rewrite IH. reflexivity.
Qed.

(** X12: after a startup in which nothing failed, and when no
    [obliterate] throws [null] or [undefined], a bulk reset calls
    [obliterate({force: true})] on the queue of every name of the scan,
    once each and in the order of the scan, and answers 200 with one
    outcome per name. *)
Theorem bulk_reset_after_startup config env names :
  connect env = Normal tt ->
  scan config env = Normal names ->
  (forall item, item ∈ names ->
     constructor_failure env (version_library config) item = None) ->
  (forall item err,
     item ∈ names ->
     obliterate_result env (version_library config) item
       (Obj [("force", Bool true)]) = Throw err ->
     nullish err = false) ->
  (clean_each_traced (queueList (startup config env initial).1) [] []).2
  = map (fun n => (Str n, force_true)) names
  /\ exists results,
       cleanAllQueuesHandler (queueList (startup config env initial).1)
       = Normal {| status := 200;
                   json := Obj [("success", Bool true);
                                ("results", Arr results)] |}
       /\ map (fun r => get r "queue") results = map Str names.
Proof.
  intros Hc Hscan Hok Hobl.
  rewrite (startup_all_built config env names Hc Hscan Hok). simpl.
  pose proof (built_adapters_isolated config env names Hobl) as Hiso.
  split.
  - rewrite <- (app_nil_r (map (built_adapter config env) names)).
    rewrite clean_each_traced_app by exact Hiso. simpl.
    apply expected_calls_built.
  - exists (map spec_outcome (map (built_adapter config env) names)). split.
    + unfold cleanAllQueuesHandler.
      rewrite clean_each_isolated by exact Hiso. reflexivity.
    + rewrite !map_map. apply map_ext. intros n.
      unfold spec_outcome, built_adapter. simpl.
      destruct (obliterate_result env _ n _); reflexivity.
Qed.

Lemma bulk_reset_after_startup_witness :
  let config := sample_config (js "bull") (js "BULLMQ") false in
  let env := sample_env (three_keys (js "bull"))
               (fun item => if bool_decide (item = js "A")
                            then Some boom else None) in
  (clean_each_traced (queueList (startup config env initial).1) [] []).2
  = [(Str (js "A"), force_true); (Str (js "B"), force_true)]
  /\ exists results,
       cleanAllQueuesHandler (queueList (startup config env initial).1)
       = Normal {| status := 200;
                   json := Obj [("success", Bool true);
                                ("results", Arr results)] |}
       /\ map (fun r => get r "queue") results = [Str (js "A"); Str (js "B")].
Proof.
  intros config env.
  apply (bulk_reset_after_startup config env [js "A"; js "B"]);
    [reflexivity|reflexivity|intros item _; reflexivity|].
  intros item err _. simpl.
  destruct (bool_decide (item = js "A")); intros H; [|discriminate H].
  injection H as <-. reflexivity.
Defined.

End startup_then_reset.

(** ** The two Redis configurations *)

Section redis_configurations.

Local Open Scope string_scope.
Local Open Scope list_scope.

(** X13: the client that lists the keys and the queue clients are given
    the same Redis: the same port, host, database and TLS flag, and the
    password in both or in neither; TLS is on only for the string
    ['true']. *)
Theorem redis_configurations_agree config :
  let socket := get (clientConfig config) "socket" in
  let redis := get (redisConfig config) "redis" in
  get socket "port" = get redis "port"
  /\ get socket "host" = get redis "host"
  /\ get socket "tls" = get redis "tls"
  /\ get (clientConfig config) "database" = get redis "db"
  /\ get (clientConfig config) "password" = get redis "password"
  /\ has_own (clientConfig config) "password" = has_own redis "password"
  /\ has_own redis "password" = truthy (REDIS_PASSWORD config)
  /\ (get redis "tls" = Bool true <-> REDIS_USE_TLS config = Str (js "true")).
Proof.
  unfold clientConfig, redisConfig.
  destruct (truthy (REDIS_PASSWORD config)) eqn:Hp; simpl;
    repeat (split; [reflexivity|]).
  all: destruct (REDIS_USE_TLS config) as [| | | |s| |]; simpl;
    try (split; intros H; discriminate H).
  all: destruct (bool_decide_reflect (s = js "true")) as [->|Hne];
    split; intros H; try done; try (injection H as ->; done).
Qed.

End redis_configurations.

(** ** The button put into the page *)

Section page.

Local Open Scope string_scope.
Local Open Scope list_scope.

Lemma starts_with_split pat s :
  starts_with pat s = true -> s = pat ++ drop (length pat) s.
Proof.
  revert s. induction pat as [|c pat IH]; intros s H; [reflexivity|].
  destruct s as [|d s]; [discriminate|]. cbn [starts_with] in H.
  apply andb_true_iff in H as [Hc H]. apply N.eqb_eq in Hc. subst d.
  simpl. f_equal. apply IH, H.
Qed.

Lemma index_from_unfold pat s i :
  index_from pat s i
  = if starts_with pat s then Some i
    else match s with
         | [] => None
         | _ :: s' => index_from pat s' (S i)
         end.
Proof. destruct s; reflexivity. Qed.

(** [indexOf] gives the first place at which the text goes on with
    [pat]. *)
Lemma index_from_Some pat s i pos :
  index_from pat s i = Some pos ->
  exists n, pos = i + n /\ n <= length s
            /\ starts_with pat (drop n s) = true
            /\ forall m, m < n -> starts_with pat (drop m s) = false.
Proof.
  revert i. induction s as [|c s IH]; intros i; rewrite index_from_unfold.
  - destruct (starts_with pat []) eqn:E; [|discriminate].
    intros [= <-]. exists 0. simpl. split; [lia|]. split; [lia|].
    split; [exact E|]. intros m Hm. lia.
  - destruct (starts_with pat (c :: s)) eqn:E.
    + intros [= <-]. exists 0. rewrite drop_0. split; [lia|].
      split; [simpl; lia|]. split; [exact E|]. intros m Hm. lia.
    + intros H. apply IH in H as (n & -> & Hn & Hs & Hmin).
      exists (S n). split; [lia|]. split; [simpl; lia|]. split; [exact Hs|].
      intros [|m] Hm; [rewrite drop_0; exact E|]. apply Hmin. lia.
Qed.

Lemma get_substitution_plain matched before after repl :
  forallb (fun c => negb (c =? dollar)%N) repl = true ->
  get_substitution matched before after repl = repl.
Proof.
  induction repl as [|c repl IH]; [reflexivity|]. cbn [forallb].
  intros H. apply andb_true_iff in H as [Hc H].
  apply negb_true_iff in Hc. cbn [get_substitution]. rewrite Hc.
  f_equal. apply IH, H.
Qed.

Lemma customScript_plain config :
  forallb (fun c => negb (c =? dollar)%N) (HOME_PAGE config) = true ->
  forallb (fun c => negb (c =? dollar)%N) (customScript config ++ js "</body>")
  = true.
Proof.
  intros H. unfold customScript. rewrite !forallb_app, H.
  assert (H1 : forallb (fun c => negb (c =? dollar)%N) script_head = true)
    by (vm_compute; reflexivity).
  assert (H2 : forallb (fun c => negb (c =? dollar)%N) script_middle = true)
    by (vm_compute; reflexivity).
  assert (H3 : forallb (fun c => negb (c =? dollar)%N) script_tail = true)
    by (vm_compute; reflexivity).
  rewrite H1, H2, H3. reflexivity.
Qed.

Lemma String_replace_absent s pat repl :
  indexOf s pat = None -> String_replace s pat repl = s.
Proof. unfold String_replace. intros ->. reflexivity. Qed.

(** X14: what is sent is the data as it is, unless the request is for
    the root path and the data is a string that contains
    [<!DOCTYPE html>] (in this very spelling) and [</body>]. *)
Theorem inject_leaves_other_responses config req_path data :
  (req_path <> js "/" /\ req_path <> [])
  \/ (forall text, data <> Str text)
  \/ (exists text, data = Str text /\
        (includes text (js "<!DOCTYPE html>") = false
         \/ indexOf text (js "</body>") = None)) ->
  injectButtonMiddleware_send config req_path data = data.
Proof.
  unfold injectButtonMiddleware_send, injected_send.
  intros [[H1 H2]|[H|(text & -> & [H|H])]].
  - rewrite (bool_decide_eq_false_2 _ H1), (bool_decide_eq_false_2 _ H2).
    reflexivity.
  - destruct (_ || _); [|reflexivity].
    destruct data; try reflexivity. destruct (H s). reflexivity.
  - rewrite H. destruct (_ || _); reflexivity.
  - rewrite String_replace_absent by exact H.
    destruct (_ || _); [|reflexivity]. destruct (includes _ _); reflexivity.
Qed.

Lemma inject_leaves_other_responses_witness :
  injectButtonMiddleware_send (sample_config (js "bull") (js "BULLMQ") true)
    (js "/") (Str (js "<!doctype html><html><body></body></html>"))
  = Str (js "<!doctype html><html><body></body></html>")
  /\ injectButtonMiddleware_send (sample_config (js "bull") (js "BULLMQ") true)
       (js "/queue/mail") (Str (js "<!DOCTYPE html><body></body>"))
     = Str (js "<!DOCTYPE html><body></body>").
Proof.
  split.
  - apply inject_leaves_other_responses. right. right.
    eexists. split; [reflexivity|]. left. vm_compute. reflexivity.
  - apply inject_leaves_other_responses. left. split; discriminate.
Defined.

(** X15: for a base path without [$], a document sent for the root path
    gets the script directly in front of its first [</body>]: the text
    before that place and the text from it on are sent as they were. *)
Theorem inject_in_front_of_body config req_path text pos :
  forallb (fun c => negb (c =? dollar)%N) (HOME_PAGE config) = true ->
  req_path = js "/" \/ req_path = [] ->
  includes text (js "<!DOCTYPE html>") = true ->
  indexOf text (js "</body>") = Some pos ->
  injectButtonMiddleware_send config req_path (Str text)
  = Str (take pos text ++ customScript config ++ drop pos text)
  /\ drop pos text = js "</body>" ++ drop (pos + 7) text
  /\ forall m, m < pos -> starts_with (js "</body>") (drop m text) = false.
Proof.
  intros Hplain Hpath Hdoc Hpos.
  unfold indexOf in Hpos.
  destruct (index_from_Some _ _ _ _ Hpos) as (n & Hn & Hlen & Hstart & Hmin).
  simpl in Hn. subst n.
  assert (Hdrop : drop pos text = js "</body>" ++ drop (pos + 7) text).
  { rewrite (starts_with_split _ _ Hstart) at 1.
    rewrite drop_drop. reflexivity. }
  split; [|split; [exact Hdrop|exact Hmin]].
  unfold injectButtonMiddleware_send, injected_send, String_replace.
  assert (Hroot : bool_decide (req_path = js "/") || bool_decide (req_path = [])
                  = true).
  { destruct Hpath as [->| ->]; reflexivity. }
  rewrite Hroot, Hdoc. unfold indexOf. rewrite Hpos.
  rewrite get_substitution_plain by apply customScript_plain, Hplain.
  rewrite Hdrop. change (length (js "</body>")) with 7.
  rewrite <- !app_assoc. reflexivity.
Qed.

Lemma inject_in_front_of_body_witness :
  let config := sample_config (js "bull") (js "BULLMQ") true in
  let text := js "<!DOCTYPE html><html><body><p>x</p></body></html>" in
  injectButtonMiddleware_send config (js "/") (Str text)
  = Str (js "<!DOCTYPE html><html><body><p>x</p>" ++ customScript config
         ++ js "</body></html>").
Proof.
  intros config text.
  destruct (inject_in_front_of_body config (js "/") text 35
              eq_refl (or_introl eq_refl) eq_refl eq_refl) as [H _].
  exact H.
Defined.

End page.

(** ** The board behind the login, and the request of the button *)

Section board_routes.

Local Open Scope string_scope.
Local Open Scope list_scope.

Lemma dispatch_Some ends layers req m :
  dispatch ends layers req = Some m ->
  exists l, l ∈ layers /\ run_handlers ends (layer_handlers l) req = Some m.
Proof.
  induction layers as [|l layers IH]; simpl; [discriminate|].
  destruct (layer_applies l req).
  - destruct (run_handlers ends (layer_handlers l) req) as [h|] eqn:E.
    + intros [= <-]. exists l. split; [apply list_elem_of_here|exact E].
    + intros H. destruct (IH H) as (l' & Hl' & Hr).
      exists l'. split; [apply list_elem_of_further, Hl'|exact Hr].
  - intros H. destruct (IH H) as (l' & Hl' & Hr).
    exists l'. split; [apply list_elem_of_further, Hl'|exact Hr].
Qed.

Lemma dispatch_not_applies ends l layers req :
  layer_applies l req = false ->
  dispatch ends (l :: layers) req = dispatch ends layers req.
Proof. intros H. simpl. rewrite H. reflexivity. Qed.

Lemma dispatch_applies ends l layers req :
  layer_applies l req = true ->
  dispatch ends (l :: layers) req
  = match run_handlers ends (layer_handlers l) req with
    | Some h => Some h
    | None => dispatch ends layers req
    end.
Proof. intros H. simpl. rewrite H. reflexivity. Qed.

(** X16: with [AUTH_ENABLED], no request of a client that is not logged
    in ends in the router of the board, whatever its method and path and
    whatever the router of the login page does. *)
Theorem board_router_needs_login config production authRouter_ends req :
  AUTH_ENABLED config = true ->
  loggedIn req = false ->
  dispatch authRouter_ends (app config production) req <> Some router.
Proof.
  intros Hauth Hlog H.
  apply dispatch_Some in H as (l & Hl & Hrun).
  unfold app in Hl. rewrite Hauth in Hl.
  apply list_elem_of_In in Hl.
  destruct production; cbn in Hl;
    repeat (destruct Hl as [<-|Hl];
            [cbn in Hrun; rewrite ?Hlog in Hrun; cbn in Hrun;
             try discriminate Hrun;
             destruct (authRouter_ends req); discriminate Hrun|]);
    destruct Hl.
Qed.

Lemma board_router_needs_login_witness :
  dispatch (fun _ => false)
    (app (sample_config (js "bull") (js "BULLMQ") true) false)
    {| method := GET; path := js "/board/queue/mail"; loggedIn := false |}
  <> Some router.
Proof.
  apply board_router_needs_login; reflexivity.
Defined.

(** X17: a GET of the base path ends in the router of the board when
    authentication is off, and with [AUTH_ENABLED] when the client is
    logged in and the router of the login page hands the request on. *)
Theorem board_router_reached config production authRouter_ends req :
  method req = GET ->
  path req = HOME_PAGE config ->
  (AUTH_ENABLED config = true ->
   loggedIn req = true /\ authRouter_ends req = false) ->
  dispatch authRouter_ends (app config production) req = Some router.
Proof.
  intros Hm Hp Hauth. unfold app.
  assert (Hpost : forall p hs layers,
            dispatch authRouter_ends (app_post p hs :: layers) req
            = dispatch authRouter_ends layers req).
  { intros p hs layers. apply dispatch_not_applies. simpl. rewrite Hm. done. }
  assert (Hmount : mount_matches (Some (HOME_PAGE config)) (path req) = true).
  { unfold mount_matches. rewrite (bool_decide_eq_true_2 _ Hp).
    rewrite orb_true_r. reflexivity. }
  destruct (AUTH_ENABLED config) eqn:Ha.
  - destruct (Hauth eq_refl) as [Hlog Hends].
    destruct production; cbn [Datatypes.app];
      repeat (rewrite dispatch_skip by reflexivity);
      rewrite (dispatch_skip_authRouter _ _ _ _ Hends), !Hpost;
      rewrite dispatch_applies by exact Hmount;
      cbn [layer_handlers run_handlers ends_request]; rewrite Hlog;
      reflexivity.
  - destruct production; cbn [Datatypes.app];
      repeat (rewrite dispatch_skip by reflexivity);
      rewrite !Hpost; rewrite dispatch_applies by exact Hmount;
      reflexivity.
Qed.

Lemma board_router_reached_witness :
  dispatch (fun _ => false)
    (app (sample_config (js "bull") (js "BULLMQ") true) true)
    {| method := GET; path := js "/board"; loggedIn := true |}
  = Some router.
Proof.
  apply board_router_reached; [reflexivity|reflexivity|].
  intros _. split; reflexivity.
Defined.

End board_routes.
